(** * snappy-swift: the C++ fixture generator and fixture validator

    A shallow embedding of [generate_test_data.cpp] and [validate_snappy.cpp].
    Both programs are straight-line batch processes around four calls into
    the Snappy library; they are modelled as programs of a small monad that
    threads the file system and the trace of observable events (stream
    insertions and codec calls) and that can leave [main] early, by a
    [return] or by an uncaught exception. *)

From Stdlib Require Import ZArith NArith Lia List.
From Stdlib.Strings Require Import String Ascii Byte.
From stdpp Require Import base tactics option list gmap strings pretty.
From Equations Require Import Equations.

Local Open Scope string_scope.
Local Open Scope list_scope.
Local Open Scope N_scope.

(** ** Bytes and [std::string] contents *)

(** The contents of a [std::string] used as a byte buffer. *)
Abbreviation bytes := (list byte).

(** A string literal of the source, as the bytes it holds. *)
Definition lit (s : string) : bytes := list_byte_of_string s.

(** [std::string::size]. *)
Definition size (s : bytes) : N := N.of_nat (length s).

(** The conversion [char(i)] of an [int]: the value modulo 256. *)
Definition char (i : Z) : byte :=
  match Byte.of_N (Z.to_N (i mod 256)) with
  | Some b => b
  | None => x00
  end.

(** [std::string(n, c)]. *)
Definition fill (n : N) (c : byte) : bytes := replicate (N.to_nat n) c.

(** [s.resize(n)]: the first [n] bytes of [s], padded with NUL bytes when
    [s] is shorter. *)
Definition string_resize (n : N) (s : bytes) : bytes :=
  resize (N.to_nat n) x00 s.

(** [std::to_string(i)] for an [int]. *)
Definition to_string (i : Z) : bytes := lit (pretty i).

(** [for (int i = lo; i < hi; i++) s = body(i, s)], the loop state threaded
    through the iterations together with the counter. *)
Definition for_range {S : Type} (lo hi : Z) (body : Z -> S -> S) (s0 : S) : S :=
  snd (N.iter (Z.to_N (hi - lo))
         (fun st => ((fst st + 1)%Z, body (fst st) (snd st))) (lo, s0)).

(** ** Observable events *)

(** The value of a [double] division is kept as its two operands: the
    programs only ever print it. *)
Variant double := Fdiv (num den : N).

(** One operand of a chain of [<<] insertions. *)
Variant item :=
  | IStr (s : string)
  | ISize (n : N)
  | IDouble (d : double)
  | IEndl.

(** A call into the codec, with what it returned. *)
Variant call :=
  | CallCompress (input compressed : bytes)
  | CallIsValidCompressedBuffer (compressed : bytes) (r : bool)
  | CallGetUncompressedLength (compressed : bytes) (r : option N)
  | CallUncompress (compressed : bytes) (r : option bytes).

Variant event :=
  | Cout (i : item)
  | Cerr (i : item)
  | Called (c : call).

(** ** The world and the program monad *)

(** The files a program can read, the paths at which it can create a file,
    and the events so far, oldest first; then what can go wrong on a
    stream that opened: the paths that open for reading but cannot be
    read (a directory), and how many bytes a path can take before a write
    to it fails ([None] when nothing limits it: no quota, no full disk). *)
Record world := World {
  files : gmap string bytes;
  creatable : string -> bool;
  trace : list event;
  unreadable : string -> bool;
  capacity : string -> option N
}.

(** A process starts with nothing emitted. *)
Definition start_in (fs : gmap string bytes) (ok : string -> bool)
    (dirs : string -> bool) (room : string -> option N) : world :=
  World fs ok [] dirs room.

(** The start in an environment where every stream that opens works:
    what opens can be read, and every write goes through in full. *)
Definition start (fs : gmap string bytes) (ok : string -> bool) : world :=
  start_in fs ok (fun _ => false) (fun _ => None).

Definition emit (es : list event) (w : world) : world :=
  World (files w) (creatable w) (trace w ++ es) (unreadable w) (capacity w).

Definition store (path : string) (content : bytes) (w : world) : world :=
  World (<[path := content]> (files w)) (creatable w) (trace w)
    (unreadable w) (capacity w).

(** The bytes of [data] that fit into [room]. *)
Definition limit (room : option N) (data : bytes) : bytes :=
  match room with
  | None => data
  | Some n => take (N.to_nat n) data
  end.

(** The exceptions [std::stoull] throws, and the [std::ios_base::failure]
    the file buffer of libstdc++ throws when a read fails. *)
Variant exception := invalid_argument | out_of_range | ios_failure.

(** How a statement ends: normally with a value, by a [return] of [main],
    or by an exception nobody catches. *)
Variant result (A : Type) :=
  | Value (a : A)
  | Return (code : Z)
  | Throw (e : exception).
Arguments Value {A} a.
Arguments Return {A} code.
Arguments Throw {A} e.

Definition prog (A : Type) : Type := world -> result A * world.

Definition ret {A} (a : A) : prog A := fun w => (Value a, w).

Definition bind {A B} (m : prog A) (k : A -> prog B) : prog B :=
  fun w =>
    match m w with
    | (Value a, w') => k a w'
    | (Return c, w') => (Return c, w')
    | (Throw e, w') => (Throw e, w')
    end.

Declare Scope prog_scope.
Delimit Scope prog_scope with prog.
Notation "x <- m ;; k" := (bind m (fun x => k))
  (at level 100, m at next level, right associativity) : prog_scope.
Notation "m ;; k" := (bind m (fun _ => k))
  (at level 100, right associativity) : prog_scope.
Local Open Scope prog_scope.

(** [return code;] in [main]. *)
Definition return_ {A} (code : Z) : prog A := fun w => (Return code, w).

Definition throw {A} (e : exception) : prog A := fun w => (Throw e, w).

(** [std::cout << i1 << i2 << ...] and the same on [std::cerr]. *)
Definition cout (l : list item) : prog unit :=
  fun w => (Value tt, emit (Cout <$> l) w).

Definition cerr (l : list item) : prog unit :=
  fun w => (Value tt, emit (Cerr <$> l) w).

(** How the process ends: [main] returned an exit code, or
    [std::terminate] aborted it on an uncaught exception. *)
Variant status :=
  | Exited (code : Z)
  | Aborted (e : exception).

Definition run (main : prog Z) (w : world) : status * world :=
  match main w with
  | (Value c, w') => (Exited c, w')
  | (Return c, w') => (Exited c, w')
  | (Throw e, w') => (Aborted e, w')
  end.

(** The two output streams of a trace, and its codec calls. *)
Definition stdout (t : list event) : list item :=
  omap (fun e => match e with Cout i => Some i | _ => None end) t.

Definition stderr (t : list event) : list item :=
  omap (fun e => match e with Cerr i => Some i | _ => None end) t.

Definition calls (t : list event) : list call :=
  omap (fun e => match e with Called c => Some c | _ => None end) t.

Definition is_uncompress (c : call) : bool :=
  match c with CallUncompress _ _ => true | _ => false end.

(** ** [std::stoull]

    The conversion the C++ standard library performs for
    [std::stoull(str)] (base 10, no position out-parameter), which is
    [strtoull]'s: leading white space is skipped, one sign is accepted, the
    longest run of decimal digits is converted and whatever follows it is
    ignored. No digit at all throws [std::invalid_argument], a magnitude
    above [ULLONG_MAX] throws [std::out_of_range], and a minus sign negates
    the value in 64-bit unsigned arithmetic. *)

Definition isspace (c : ascii) : bool :=
  let n := N_of_ascii c in (n =? 32) || ((9 <=? n) && (n <=? 13)).

Fixpoint skip_spaces (s : string) : string :=
  match s with
  | String c r => if isspace c then skip_spaces r else s
  | EmptyString => s
  end.

Definition digit (c : ascii) : option N :=
  let n := N_of_ascii c in
  if (48 <=? n) && (n <=? 57) then Some (n - 48) else None.

(** The value of the longest prefix of decimal digits of [s], continuing
    from [acc]; [None] when no digit has been read. *)
Fixpoint digits (acc : option N) (s : string) : option N :=
  match s with
  | String c r =>
      match digit c with
      | Some d => digits (Some (10 * default 0 acc + d)) r
      | None => acc
      end
  | EmptyString => acc
  end.

Definition ULLONG_MAX : N := 2 ^ 64 - 1.

Definition strip_sign (s : string) : bool * string :=
  match s with
  | String "-"%char r => (true, r)
  | String "+"%char r => (false, r)
  | _ => (false, s)
  end.

Definition stoull (str : string) : exception + N :=
  let (neg, s) := strip_sign (skip_spaces str) in
  match digits None s with
  | None => inl invalid_argument
  | Some v =>
      if ULLONG_MAX <? v then inl out_of_range
      else inr (if neg then (2 ^ 64 - v) mod 2 ^ 64 else v)
  end.

(** [size_t n = std::stoull(str)] inside a program; [size_t] is taken to
    be 64 bits wide, as [unsigned long long] is. *)
Definition std_stoull (str : string) : prog N :=
  match stoull str with
  | inl e => throw e
  | inr n => ret n
  end.

(** ** The reference codec *)

(** Modelled from the spec: the reference codec, [snappy.h] and the Snappy
    library behind it, which the two programs include from [../snappy-cpp]
    and which is not among the repository's source files. It is the
    interface of the four operations the programs call:
    [compress(bytes) -> bytes], a total function;
    [isValidCompressedBuffer(bytes) -> bool];
    [getUncompressedLength(bytes) -> (bool success, size)];
    [decompress(bytes) -> (bool success, bytes)]. *)
Class Codec := {
  Compress : bytes -> bytes;
  IsValidCompressedBuffer : bytes -> bool;
  GetUncompressedLength : bytes -> option N;
  Uncompress : bytes -> option bytes
}.

(** Modelled from the spec: what the spec takes the reference codec, an
    already-correct oracle, to guarantee. Each is assumed only where a theorem
    names it. The Snappy length preamble is a 32-bit varint, hence the
    bound on the input of the round trip. *)
Definition codec_round_trip (c : Codec) : Prop :=
  forall input : bytes, size input < 2 ^ 32 ->
    Uncompress (Compress input) = Some input.

Definition codec_declared_length (c : Codec) : Prop :=
  forall compressed out : bytes, Uncompress compressed = Some out ->
    GetUncompressedLength compressed = Some (size out).

Definition codec_rejects_empty (c : Codec) : Prop :=
  IsValidCompressedBuffer [] = false.

(** ** File streams *)

(** A [std::ofstream]: the path it was opened on and whether it is good. *)
Record ofstream := Ofstream { of_path : string; of_good : bool }.

(** [std::ofstream file(path, std::ios::binary)]: the file is created
    empty, or the stream is left in a failed state. *)
Definition ofstream_open (path : string) : prog ofstream :=
  fun w =>
    if creatable w path then (Value (Ofstream path true), store path [] w)
    else (Value (Ofstream path false), w).

(** [file.write(data, n)] up to the [file.close()] that flushes it: does
    nothing on a failed stream, and on a good one appends the bytes that
    fit, which is all of them unless the write fails part-way. The stream
    records a failure in its state only, which the program never reads. *)
Definition ofstream_write (file : ofstream) (data : bytes) : prog unit :=
  fun w =>
    if of_good file
    then (Value tt,
          store (of_path file)
            (limit (capacity w (of_path file))
               (default [] (files w !! of_path file) ++ data)) w)
    else (Value tt, w).

Definition ofstream_close (file : ofstream) : prog unit := ret tt.

(** A [std::ifstream]: the path it was opened on and whether it is good. *)
Record ifstream := Ifstream { if_path : string; if_good : bool }.

(** [std::ifstream file(path, std::ios::binary)]: the stream is good when
    the path is a file that can be read, and also when it is one that
    opens and fails on the first read, as a directory does. *)
Definition ifstream_open (path : string) : prog ifstream :=
  fun w =>
    (Value (Ifstream path
              (unreadable w path ||
               match files w !! path with Some _ => true | None => false end)),
     w).

(** [std::string(std::istreambuf_iterator<char>(file), {})] on a good
    stream: all the bytes of the file. The iterators read from the file
    buffer directly, so the exception it throws on a failing read reaches
    [main], which does not catch it. *)
Definition istreambuf_read (file : ifstream) : prog bytes :=
  fun w =>
    if unreadable w (if_path file) then (Throw ios_failure, w)
    else (Value match files w !! if_path file with
                | Some content => content
                | None => []
                end, w).

(** ** Calls into the codec

    Each call is recorded in the trace with what it returned, so that a
    theorem can say which calls a run made. *)
Section CodecCalls.
Context {codec : Codec}.

Definition snappy_Compress (input : bytes) : prog bytes :=
  fun w =>
    let compressed := Compress input in
    (Value compressed, emit [Called (CallCompress input compressed)] w).

Definition snappy_IsValidCompressedBuffer (compressed : bytes) : prog bool :=
  fun w =>
    let r := IsValidCompressedBuffer compressed in
    (Value r, emit [Called (CallIsValidCompressedBuffer compressed r)] w).

Definition snappy_GetUncompressedLength (compressed : bytes) : prog (option N) :=
  fun w =>
    let r := GetUncompressedLength compressed in
    (Value r, emit [Called (CallGetUncompressedLength compressed r)] w).

Definition snappy_Uncompress (compressed : bytes) : prog (option bytes) :=
  fun w =>
    let r := Uncompress compressed in
    (Value r, emit [Called (CallUncompress compressed r)] w).
End CodecCalls.

(** ** [generate_test_data.cpp] *)
Module generate_test_data.

(** The inputs [main] builds, named after its local variables. *)

(** Test 5: [for (int i = 0; i < 20; i++) pattern += "abcdefgh";] *)
Definition pattern : bytes :=
  for_range 0 20 (fun _ pattern => pattern ++ lit "abcdefgh") [].

(** Test 6 *)
Definition longer : bytes :=
  lit ("The quick brown fox jumps over the lazy dog. "
       +:+ "The quick brown fox jumps over the lazy dog. "
       +:+ "The quick brown fox jumps over the lazy dog. "
       +:+ "The quick brown fox jumps over the lazy dog.").

(** Test 7: [for (int i = 32; i < 127; i++) ascii += char(i);] *)
Definition ascii : bytes :=
  for_range 32 127 (fun i ascii => ascii ++ [char i]) [].

(** Test 8 *)
Definition large : bytes := fill 10000 "x"%byte.

(** Test 9 *)
Definition mixed : bytes := lit "AAAAAAAbbbbbCCCCCdddEEFF1234567890".

(** Test 10: [numbers += std::to_string(i) + " "] for [i] below 100. *)
Definition numbers : bytes :=
  for_range 0 100 (fun i numbers => numbers ++ (to_string i ++ lit " ")) [].

(** Test 11 *)
Definition chunk : bytes := lit "The quick brown fox jumps over the lazy dog. ".

(** [while (large100k.size() < 100000) large100k += chunk;] It ends
    because every iteration makes the string 45 bytes longer. *)
Equations? append_chunks (large100k : bytes) : bytes
  by wf (N.to_nat (100000 - size large100k)) lt :=
  append_chunks large100k with decide (size large100k < 100000) := {
    | left _ => append_chunks (large100k ++ chunk);
    | right _ => large100k }.
Proof.
  unfold size in *. rewrite length_app.
  change (length chunk) with 45%nat. lia.
Qed.

Definition large100k : bytes := string_resize 100000 (append_chunks []).

(** Test 12 *)
Definition large1mb : bytes :=
  string_resize 1048576
    (for_range 0 10000
       (fun i large1mb =>
          let large1mb :=
            large1mb ++
            (lit "Line " ++ to_string i ++
             lit ": Lorem ipsum dolor sit amet, consectetur adipiscing elit. ") in
          if (Z.rem i 10 =? 0)%Z
          then large1mb ++ fill 50 (char (65 + Z.rem i 26))
          else large1mb)
       []).

(** Test 13 *)
Definition large10mb : bytes :=
  for_range 0 (10485760 ÷ 100)
    (fun _ large10mb => large10mb ++ fill 100 "X"%byte) [].

Definition fixture_path (name : string) : string :=
  "Tests/SnappySwiftTests/TestData/" +:+ name +:+ ".snappy".

Section WithCodec.
Context {codec : Codec}.

Definition writeTestCase (name : string) (input : bytes) : prog unit :=
  compressed <- snappy_Compress input;;
  let filename := fixture_path name in
  file <- ofstream_open filename;;
  ofstream_write file compressed;;
  ofstream_close file;;
  cout [IStr name; IStr ":"; IEndl];;
  cout [IStr "  Input size: "; ISize (size input); IStr " bytes"; IEndl];;
  cout [IStr "  Compressed size: "; ISize (size compressed);
        IStr " bytes"; IEndl];;
  cout [IStr "  Ratio: ";
        IDouble (Fdiv (size input) (size compressed)); IStr "x"; IEndl];;
  cout [IStr "  Saved to: "; IStr filename; IEndl];;
  cout [IEndl].

Definition main : prog Z :=
  cout [IStr "Generating Snappy test data..."; IEndl];;
  cout [IEndl];;
  writeTestCase "empty" (lit "");;
  writeTestCase "single_byte" (lit "A");;
  writeTestCase "hello" (lit "Hello, World!");;
  writeTestCase "repeated" (fill 100 "a"%byte);;
  writeTestCase "pattern" pattern;;
  writeTestCase "longer_text" longer;;
  writeTestCase "ascii" ascii;;
  writeTestCase "large" large;;
  writeTestCase "mixed" mixed;;
  writeTestCase "numbers" numbers;;
  writeTestCase "large_100kb" large100k;;
  writeTestCase "large_1mb" large1mb;;
  cout [IStr "Generating 10MB file (this may take a moment)..."; IEndl];;
  writeTestCase "large_10mb" large10mb;;
  cout [IStr "Test data generation complete!"; IEndl];;
  return_ 0.
End WithCodec.

(** The test cases of [main] in the order it writes them. *)
Definition catalog : list (string * bytes) :=
  [ ("empty", lit ""); ("single_byte", lit "A"); ("hello", lit "Hello, World!");
    ("repeated", fill 100 "a"%byte); ("pattern", pattern);
    ("longer_text", longer); ("ascii", ascii); ("large", large);
    ("mixed", mixed); ("numbers", numbers); ("large_100kb", large100k);
    ("large_1mb", large1mb); ("large_10mb", large10mb) ].

End generate_test_data.

(** ** [validate_snappy.cpp] *)

(** [if (c) { body }] where [body] may leave [main]. *)
Definition when (c : bool) (body : prog unit) : prog unit :=
  if c then body else ret tt.

(** The value an operation delivered through its out-parameter, or the
    statements of the branch taken when it reported failure. *)
Definition or_else {A} (r : option A) (failed : prog A) : prog A :=
  match r with
  | Some a => ret a
  | None => failed
  end.

(** The line feed that starts the last message. *)
Definition nl : string := String "010"%char "".

Module validate_snappy.
Section WithCodec.
Context {codec : Codec}.

(** [main(argc, argv)]: [argv0] is [argv[0]] and [args] are the
    arguments after it, so that [argc] is [1 + length args]. *)
Definition main (argv0 : string) (args : list string) : prog Z :=
  match args with
  | [arg1; arg2] =>
      let filename := arg1 in
      expectedSize <- std_stoull arg2;;
      (* Read compressed file *)
      file <- ifstream_open filename;;
      when (negb (if_good file))
        (cerr [IStr "ERROR: Cannot open file: "; IStr filename; IEndl];;
         return_ 1);;
      compressed <- istreambuf_read file;;
      cout [IStr "File: "; IStr filename; IEndl];;
      cout [IStr "Compressed size: "; ISize (size compressed);
            IStr " bytes"; IEndl];;
      (* Validate compressed data *)
      valid <- snappy_IsValidCompressedBuffer compressed;;
      when (negb valid)
        (cerr [IStr "ERROR: Invalid compressed data format"; IEndl];;
         return_ 1);;
      cout [IStr "✓ Format validation passed"; IEndl];;
      (* Get uncompressed length *)
      got <- snappy_GetUncompressedLength compressed;;
      uncompressedLength <- or_else got
        (cerr [IStr "ERROR: Cannot get uncompressed length"; IEndl];;
         return_ 1);;
      cout [IStr "✓ Uncompressed length: "; ISize uncompressedLength;
            IStr " bytes"; IEndl];;
      (* Check against expected size *)
      when (negb (uncompressedLength =? expectedSize))
        (cerr [IStr "ERROR: Size mismatch! Expected "; ISize expectedSize;
               IStr " but got "; ISize uncompressedLength; IEndl];;
         return_ 1);;
      cout [IStr "✓ Size matches expected: "; ISize expectedSize;
            IStr " bytes"; IEndl];;
      (* Decompress *)
      out <- snappy_Uncompress compressed;;
      decompressed <- or_else out
        (cerr [IStr "ERROR: Decompression failed"; IEndl];;
         return_ 1);;
      cout [IStr "✓ Decompression successful"; IEndl];;
      (* Verify final size *)
      when (negb (size decompressed =? expectedSize))
        (cerr [IStr "ERROR: Decompressed size mismatch! Expected ";
               ISize expectedSize; IStr " but got ";
               ISize (size decompressed); IEndl];;
         return_ 1);;
      (* Calculate compression ratio *)
      let ratio := Fdiv (size decompressed) (size compressed) in
      cout [IStr "✓ Compression ratio: "; IDouble ratio; IStr "x"; IEndl];;
      cout [IStr (nl +:+ "✅ ALL CHECKS PASSED - Swift-compressed data is valid!");
            IEndl];;
      return_ 0
  | _ =>
      cerr [IStr "Usage: "; IStr argv0;
            IStr " <compressed_file> <expected_size>"; IEndl];;
      cerr [IStr "Example: "; IStr argv0; IStr " test.snappy 100"; IEndl];;
      return_ 1
  end.
End WithCodec.
End validate_snappy.

(** ** A codec in the Snappy stream format

    An instance of the codec interface on which the programs can be run:
    the decompressor reads the Snappy stream format (a varint32 preamble
    with the uncompressed length, then literal and copy elements), and the
    compressor emits every input byte as a literal element of length one,
    which is a valid if wasteful Snappy stream. It shows that the
    guarantees assumed of the reference codec can be met together; no
    theorem about the programs depends on the choices of this compressor. *)
Module LiteralSnappy.

(** The preamble: at most five bytes, seven bits each, low bits first;
    [left] bytes may still be read. *)
Fixpoint parse_varint32 (left : nat) (shift acc : N) (p : bytes)
  : option (N * bytes) :=
  match left, p with
  | S left', b :: rest =>
      let v := Byte.to_N b in
      if v <? 128 then
        if (shift =? 28) && (16 <=? v) then None
        else Some (acc + v * 2 ^ shift, rest)
      else
        match left' with
        | O => None
        | S _ => parse_varint32 left' (shift + 7) (acc + (v - 128) * 2 ^ shift) rest
        end
  | _, _ => None
  end.

Fixpoint encode_varint32 (left : nat) (v : N) : bytes :=
  match left with
  | O => []
  | S left' =>
      if v <? 128 then [char (Z.of_N v)]
      else char (Z.of_N (v mod 128 + 128)) :: encode_varint32 left' (v / 128)
  end.

(** A little-endian number. *)
Definition le_value (bs : bytes) : N :=
  fold_right (fun b acc => Byte.to_N b + 256 * acc) 0 bs.

(** Appends [len] bytes read [offset] bytes back from the end of the
    output, one at a time, so that a copy may overlap what it writes. *)
Fixpoint copy_back (len offset : nat) (out : bytes) : option bytes :=
  match len with
  | O => Some out
  | S len' =>
      match out !! (length out - offset)%nat with
      | Some b => copy_back len' offset (out ++ [b])
      | None => None
      end
  end.

Definition copy (declared len offset : N) (ip out : bytes)
  : option (bytes * bytes) :=
  if (offset =? 0) || (size out <? offset) || (declared <? size out + len)
  then None
  else pair ip <$> copy_back (N.to_nat len) (N.to_nat offset) out.

(** One element: what is left of the input and the output after it. *)
Definition element (declared : N) (tag : byte) (ip out : bytes)
  : option (bytes * bytes) :=
  let t := Byte.to_N tag in
  let operand (n : nat) := if (length ip <? n)%nat then None else Some (take n ip) in
  match N.land t 3 with
  | 0 =>
      let l := N.shiftr t 2 in
      let extra := N.to_nat (l - 59) in
      lenbytes ← operand extra;
      let len := (if l <? 60 then l else le_value lenbytes) + 1 in
      let ip := drop extra ip in
      if (size ip <? len) || (declared <? size out + len) then None
      else Some (drop (N.to_nat len) ip, out ++ take (N.to_nat len) ip)
  | 1 =>
      low ← operand 1%nat;
      copy declared (4 + N.land (N.shiftr t 2) 7)
        (N.lor (N.shiftl (N.shiftr t 5) 8) (le_value low)) (drop 1 ip) out
  | 2 =>
      off ← operand 2%nat;
      copy declared (1 + N.shiftr t 2) (le_value off) (drop 2 ip) out
  | _ =>
      off ← operand 4%nat;
      copy declared (1 + N.shiftr t 2) (le_value off) (drop 4 ip) out
  end%N.

(** The elements in turn; every one consumes its tag byte, so the length
    of the input is fuel enough. *)
Fixpoint decode (fuel : nat) (declared : N) (ip out : bytes) : option bytes :=
  match ip with
  | [] => if size out =? declared then Some out else None
  | tag :: ip =>
      match fuel with
      | O => None
      | S fuel' =>
          match element declared tag ip out with
          | Some (ip, out) => decode fuel' declared ip out
          | None => None
          end
      end
  end.

Definition uncompress (compressed : bytes) : option bytes :=
  match parse_varint32 5 0 0 compressed with
  | Some (declared, ip) => decode (length ip) declared ip []
  | None => None
  end.

Definition compress (input : bytes) : bytes :=
  encode_varint32 5 (size input mod 2 ^ 32) ++
  flat_map (fun b => [x00; b]) input.

#[export] Instance codec : Codec := {
  Compress := compress;
  IsValidCompressedBuffer c := bool_decide (is_Some (uncompress c));
  GetUncompressedLength c := fst <$> parse_varint32 5 0 0 c;
  Uncompress := uncompress
}.

End LiteralSnappy.

(** A codec whose compressor returns the empty stream for the empty
    input: the interface does not rule it out. *)
Definition bare_codec : Codec := {|
  Compress input := input;
  IsValidCompressedBuffer _ := true;
  GetUncompressedLength c := Some (size c);
  Uncompress c := Some c
|}.

(** * Specification-side definitions

    What the statements below are phrased with: the events one test case
    adds to the trace, and the verdict of the validator's pipeline read off
    the codec's answers. *)

Section GeneratorSpec.
Context {codec : Codec}.
Import generate_test_data.

(** The events [writeTestCase name input] adds to the trace: the call
    of the compressor and the five lines of the summary. *)
Definition summary (name : string) (input : bytes) : list event :=
  let compressed := Compress input in
  [Called (CallCompress input compressed)] ++
  (Cout <$> [IStr name; IStr ":"; IEndl]) ++
  (Cout <$> [IStr "  Input size: "; ISize (size input); IStr " bytes"; IEndl]) ++
  (Cout <$> [IStr "  Compressed size: "; ISize (size compressed);
             IStr " bytes"; IEndl]) ++
  (Cout <$> [IStr "  Ratio: "; IDouble (Fdiv (size input) (size compressed));
             IStr "x"; IEndl]) ++
  (Cout <$> [IStr "  Saved to: "; IStr (fixture_path name); IEndl]) ++
  (Cout <$> [IEndl]).

(** The files after [content] was written to [path], which happens only
    where the file could be created, and as far as the path has room. *)
Definition persist (ok : string -> bool) (room : string -> option N)
    (path : string) (content : bytes) (fs : gmap string bytes)
  : gmap string bytes :=
  if ok path then <[path := limit (room path) content]> fs else fs.

(** The files after the test cases [cases] were written in turn. *)
Definition written (ok : string -> bool) (room : string -> option N)
    (cases : list (string * bytes)) (fs : gmap string bytes)
  : gmap string bytes :=
  foldl (fun fs c =>
           persist ok room (fixture_path (fst c)) (Compress (snd c)) fs)
    fs cases.

(** Everything a run of the generator emits. *)
Definition main_events : list event :=
  (Cout <$> [IStr "Generating Snappy test data..."; IEndl]) ++
  (Cout <$> [IEndl]) ++
  summary "empty" (lit "") ++
  summary "single_byte" (lit "A") ++
  summary "hello" (lit "Hello, World!") ++
  summary "repeated" (fill 100 "a"%byte) ++
  summary "pattern" pattern ++
  summary "longer_text" longer ++
  summary "ascii" ascii ++
  summary "large" large ++
  summary "mixed" mixed ++
  summary "numbers" numbers ++
  summary "large_100kb" large100k ++
  summary "large_1mb" large1mb ++
  (Cout <$> [IStr "Generating 10MB file (this may take a moment)..."; IEndl]) ++
  summary "large_10mb" large10mb ++
  (Cout <$> [IStr "Test data generation complete!"; IEndl]).
End GeneratorSpec.

(** The four stages of the validator's pipeline. *)
Variant stage := Load | StructuralValidity | DeclaredLength | Decompression.

(** What can go wrong, with the values involved. *)
Variant failure :=
  | CannotOpen (path : string)
  | InvalidFormat
  | NoUncompressedLength
  | SizeMismatch (expected declared : N)
  | DecompressionFailed
  | DecompressedSizeMismatch (expected actual : N).

Definition stage_of (f : failure) : stage :=
  match f with
  | CannotOpen _ => Load
  | InvalidFormat => StructuralValidity
  | NoUncompressedLength | SizeMismatch _ _ => DeclaredLength
  | DecompressionFailed | DecompressedSizeMismatch _ _ => Decompression
  end.

(** The line on the error stream that reports a failure. *)
Definition diagnostic (f : failure) : list item :=
  match f with
  | CannotOpen path => [IStr "ERROR: Cannot open file: "; IStr path; IEndl]
  | InvalidFormat => [IStr "ERROR: Invalid compressed data format"; IEndl]
  | NoUncompressedLength => [IStr "ERROR: Cannot get uncompressed length"; IEndl]
  | SizeMismatch expected declared =>
      [IStr "ERROR: Size mismatch! Expected "; ISize expected;
       IStr " but got "; ISize declared; IEndl]
  | DecompressionFailed => [IStr "ERROR: Decompression failed"; IEndl]
  | DecompressedSizeMismatch expected actual =>
      [IStr "ERROR: Decompressed size mismatch! Expected "; ISize expected;
       IStr " but got "; ISize actual; IEndl]
  end.

Variant verdict := Pass | Fail (f : failure).

(** The last line of a successful run. *)
Definition success_marker : list item :=
  [IStr (nl +:+ "✅ ALL CHECKS PASSED - Swift-compressed data is valid!"); IEndl].

Section ValidatorSpec.
Context {codec : Codec}.

(** The pipeline as the spec describes it, each stage gating the next:
    load; structural validity; the declared length, queried and compared
    with the expected size; full decompression and the comparison of the
    decompressed size. [file] is what loading delivered. *)
Definition pipeline (filename : string) (file : option bytes)
    (expectedSize : N) : verdict :=
  match file with
  | None => Fail (CannotOpen filename)
  | Some compressed =>
      if IsValidCompressedBuffer compressed then
        match GetUncompressedLength compressed with
        | None => Fail NoUncompressedLength
        | Some declared =>
            if declared =? expectedSize then
              match Uncompress compressed with
              | None => Fail DecompressionFailed
              | Some decompressed =>
                  if size decompressed =? expectedSize then Pass
                  else Fail (DecompressedSizeMismatch expectedSize
                               (size decompressed))
              end
            else Fail (SizeMismatch expectedSize declared)
        end
      else Fail InvalidFormat
  end.
End ValidatorSpec.

(** ** Concrete worlds

    The inputs at which the theorems are instantiated. *)

(** A fixture store holding the [hello] fixture as the codec in the Snappy
    stream format compresses it, a zero-length file and a file that is no
    Snappy stream. *)
Definition sample_files : gmap string bytes :=
  {[ "hello.snappy" := LiteralSnappy.compress (lit "Hello, World!");
     "empty.snappy" := [];
     "garbage.snappy" := lit "garbage" ]}.

(** Every file can be created, or none. *)
Definition writable : string -> bool := fun _ => true.
Definition read_only : string -> bool := fun _ => false.

(** ** Proof automation *)

#[local] Instance byte_eq_decision : EqDecision byte := byte_eq_dec.

(** Unfolds a run of the validator down to the codec's answers. *)
Ltac run_validator :=
  unfold run, validate_snappy.main, std_stoull, ifstream_open, istreambuf_read,
    or_else, when, bind, cerr, cout, ret, return_, throw,
    snappy_IsValidCompressedBuffer, snappy_GetUncompressedLength,
    snappy_Uncompress, emit, start, start_in;
  cbn [files creatable trace unreadable capacity if_path if_good orb negb
       fst snd].

(** Rewrites with the answers known from the context and computes on. *)
Ltac answer H :=
  repeat
    (rewrite H;
     cbn [files creatable trace unreadable capacity if_path if_good orb negb
          fst snd bind or_else when];
     unfold or_else, when, bind, cerr, cout, ret, return_, emit;
     cbn [files creatable trace unreadable capacity if_path if_good orb negb
          fst snd]).

(** Splits a membership in an explicit list into its cases, dropping the
    elements that are another constructor. *)
Ltac among H :=
  repeat (apply elem_of_cons in H as [H|H]; [try discriminate H|]);
  try (apply elem_of_nil in H; destruct H).


(** ** Further definitions *)

(** Modelled from the spec: a stream the reference codec compressed is a
    well-formed stream to its validity check, for inputs within the 32-bit
    length preamble. *)
Definition codec_accepts_own_output (c : Codec) : Prop :=
  forall input : bytes, size input < 2 ^ 32 ->
    IsValidCompressedBuffer (Compress input) = true.

(** How many of the three codec calls a run makes before it stops. *)
Definition calls_made (v : verdict) : nat :=
  match v with
  | Pass => 3
  | Fail f =>
      match stage_of f with
      | Load => 0
      | StructuralValidity => 1
      | DeclaredLength => 2
      | Decompression => 3
      end
  end.

(** Closes a goal that a concrete output ends with two given items when
    it does not: [H] says that it does. *)
Ltac not_the_end H :=
  apply (f_equal (@rev item)) in H; rewrite rev_app_distr in H;
  cbn in H; discriminate H.

(** * Properties *)

(** ** The loop combinator and string sizes *)

Lemma for_range_ind {S : Type} (P : Z -> S -> Prop)
    (lo hi : Z) (body : Z -> S -> S) (s0 : S) :
  (lo <= hi)%Z ->
  P lo s0 ->
  (forall i s, (lo <= i < hi)%Z -> P i s -> P (i + 1)%Z (body i s)) ->
  P hi (for_range lo hi body s0).
Proof.
  intros Hle H0 Hstep. unfold for_range.
  set (f := fun st : Z * S => ((fst st + 1)%Z, body (fst st) (snd st))).
  assert (Hn : forall n : N, (lo + Z.of_N n <= hi)%Z ->
            fst (N.iter n f (lo, s0)) = (lo + Z.of_N n)%Z /\
            P (lo + Z.of_N n)%Z (snd (N.iter n f (lo, s0)))).
  { induction n as [|n IH] using N.peano_ind; intros Hb.
    - simpl. rewrite Z.add_0_r. auto.
    - rewrite N.iter_succ. destruct IH as [IH1 IH2]; [lia|].
      unfold f at 1. simpl. rewrite IH1.
      replace (lo + Z.of_N (N.succ n))%Z with (lo + Z.of_N n + 1)%Z by lia.
      split; [reflexivity|]. apply Hstep; [lia|assumption]. }
  destruct (Hn (Z.to_N (hi - lo))) as [_ HP]; [lia|].
  replace (lo + Z.of_N (Z.to_N (hi - lo)))%Z with hi in HP by lia.
  exact HP.
Qed.

Lemma size_app (s t : bytes) : size (s ++ t) = size s + size t.
Proof. unfold size. rewrite length_app. lia. Qed.

Lemma size_fill (n : N) (c : byte) : size (fill n c) = n.
Proof. unfold size, fill. rewrite length_replicate. lia. Qed.

Lemma size_string_resize (n : N) (s : bytes) : size (string_resize n s) = n.
Proof. unfold size, string_resize. rewrite length_resize. lia. Qed.

(** ** The program monad *)

Lemma bind_value {A B} (m : prog A) (k : A -> prog B) (w w' : world) (a : A) :
  m w = (Value a, w') -> bind m k w = k a w'.
Proof. intros H. unfold bind. rewrite H. reflexivity. Qed.

Lemma stderr_app (t t' : list event) : stderr (t ++ t') = stderr t ++ stderr t'.
Proof. unfold stderr. apply omap_app. Qed.

Lemma stdout_app (t t' : list event) : stdout (t ++ t') = stdout t ++ stdout t'.
Proof. unfold stdout. apply omap_app. Qed.

(** ** The generator *)

Section Generator.
Context {codec : Codec}.
Import generate_test_data.

Lemma writeTestCase_spec (name : string) (input : bytes) (w : world) :
  writeTestCase name input w =
  (Value tt,
   World (persist (creatable w) (capacity w) (fixture_path name)
            (Compress input) (files w))
         (creatable w) (trace w ++ summary name input)
         (unreadable w) (capacity w)).
Proof.
  unfold writeTestCase, persist, summary, bind, snappy_Compress, ofstream_open,
    ofstream_write, ofstream_close, cout, ret, emit, store.
  cbn [files creatable trace unreadable capacity].
  destruct (creatable w (fixture_path name)) eqn:Hok;
    cbn [files creatable trace unreadable capacity of_good of_path].
  - rewrite lookup_insert_eq, insert_insert_eq. cbn [default app].
    rewrite <- !app_assoc. reflexivity.
  - rewrite <- !app_assoc. reflexivity.
Qed.

Lemma cout_spec (l : list item) (w : world) :
  cout l w =
  (Value tt,
   World (files w) (creatable w) (trace w ++ (Cout <$> l))
         (unreadable w) (capacity w)).
Proof. reflexivity. Qed.

Lemma written_nil (ok : string -> bool) (room : string -> option N)
    (fs : gmap string bytes) :
  written ok room [] fs = fs.
Proof. reflexivity. Qed.

Lemma written_cons (ok : string -> bool) (room : string -> option N)
    (name : string) (input : bytes) (cases : list (string * bytes))
    (fs : gmap string bytes) :
  written ok room ((name, input) :: cases) fs =
  written ok room cases
    (persist ok room (fixture_path name) (Compress input) fs).
Proof. reflexivity. Qed.

Lemma main_spec (w : world) :
  main w =
  (Return 0%Z,
   World (written (creatable w) (capacity w) catalog (files w)) (creatable w)
         (trace w ++ main_events) (unreadable w) (capacity w)).
Proof.
  unfold main.
  repeat (erewrite bind_value;
          [| first [apply writeTestCase_spec | apply cout_spec]];
          cbn [files creatable trace unreadable capacity]).
  unfold return_, main_events, catalog.
  rewrite !written_cons, written_nil, <- !app_assoc. reflexivity.
Qed.
End Generator.

(** ** The corpus *)

Section Corpus.
Import generate_test_data.

Lemma length_repeated_chunk (k : nat) :
  length (concat (replicate k chunk)) = (45 * k)%nat.
Proof.
  induction k as [|k IH]; [reflexivity|].
  cbn [replicate concat]. rewrite length_app, IH.
  change (length chunk) with 45%nat. lia.
Qed.

(** The loop stops after the first repetition that reaches the limit. *)
Lemma append_chunks_spec (k : nat) (s : bytes) :
  100000 <= size s + 45 * N.of_nat k ->
  (k = 0%nat \/ size s + 45 * N.of_nat (k - 1) < 100000) ->
  append_chunks s = s ++ concat (replicate k chunk).
Proof.
  revert s. induction k as [|k IH]; intros s Hge Hlt.
  - rewrite append_chunks_equation_1.
    destruct (decide (size s < 100000)) as [Hs|Hs]; [lia|].
    cbn. rewrite app_nil_r. reflexivity.
  - rewrite append_chunks_equation_1.
    destruct Hlt as [Hk|Hlt]; [discriminate|].
    replace (S k - 1)%nat with k in Hlt by lia.
    destruct (decide (size s < 100000)) as [Hs|Hs]; [|lia].
    cbn [append_chunks_unfold_clause_1 replicate concat].
    assert (Hc : size (s ++ chunk) = size s + 45).
    { rewrite size_app. reflexivity. }
    rewrite IH; [rewrite <- app_assoc; reflexivity|lia|].
    destruct k as [|k]; [left; reflexivity|right].
    replace (S k - 1)%nat with k by lia. lia.
Qed.

Lemma ascii_bytes :
  ascii = char <$> seqZ 32 95.
Proof. vm_compute. reflexivity. Qed.
End Corpus.

(** C8. The baked-in corpus matches its documented shapes. The input of
    the printable-ASCII case holds every byte value from 32 to 126 exactly
    once and no other byte: it has no duplicate, and a byte occurs in it
    if and only if its value lies in that range. The input of the large
    phrase-built case is exactly 100,000 bytes long and is the first
    100,000 bytes of the phrase repeated 2223 times, which is at least
    that long, so that the final [resize] truncates and does not pad. *)
Theorem corpus_shapes :
  (NoDup generate_test_data.ascii /\
   forall b : byte,
     b ∈ generate_test_data.ascii <-> 32 <= Byte.to_N b <= 126) /\
  (size generate_test_data.large100k = 100000 /\
   generate_test_data.large100k =
     take (N.to_nat 100000) (concat (replicate 2223 generate_test_data.chunk)) /\
   (N.to_nat 100000 <=
      length (concat (replicate 2223 generate_test_data.chunk)))%nat).
Proof.
  split; [split|].
  - rewrite ascii_bytes. apply (bool_decide_unpack _). vm_compute. exact I.
  - assert (H : forall b : byte,
        bool_decide (b ∈ generate_test_data.ascii) =
        bool_decide (32 <= Byte.to_N b <= 126)).
    { intros b. rewrite ascii_bytes. destruct b; vm_compute; reflexivity. }
    intros b.
    rewrite <- (bool_decide_eq_true (b ∈ generate_test_data.ascii)),
      <- (bool_decide_eq_true (32 <= Byte.to_N b <= 126)), H.
    reflexivity.
  - assert (Hlen : (N.to_nat 100000 <=
        length (concat (replicate 2223 generate_test_data.chunk)))%nat).
    { rewrite length_repeated_chunk. lia. }
    split; [apply size_string_resize|]. split; [|exact Hlen].
    unfold generate_test_data.large100k, string_resize.
    rewrite (append_chunks_spec 2223 []).
    + cbn [app]. apply resize_le, Hlen.
    + unfold size. cbn [length]. lia.
    + right. unfold size. cbn [length]. lia.
Qed.

(** ** Fixture paths and the files the generator leaves *)

Lemma list_ascii_of_string_app (a b : string) :
  list_ascii_of_string (a +:+ b) = list_ascii_of_string a ++ list_ascii_of_string b.
Proof. induction a as [|c a IH]; [reflexivity|]. simpl. f_equal. exact IH. Qed.

Lemma string_app_inv_tail (a b s : string) : a +:+ s = b +:+ s -> a = b.
Proof.
  intros H. apply (f_equal list_ascii_of_string) in H.
  rewrite !list_ascii_of_string_app in H. apply app_inv_tail in H.
  rewrite <- (string_of_list_ascii_of_string a), <- (string_of_list_ascii_of_string b).
  rewrite H. reflexivity.
Qed.

Lemma fixture_path_inj (a b : string) :
  generate_test_data.fixture_path a = generate_test_data.fixture_path b -> a = b.
Proof.
  unfold generate_test_data.fixture_path. intros H.
  apply String.app_inj in H. apply string_app_inv_tail in H. exact H.
Qed.

Section Fixtures.
Context {codec : Codec}.
Import generate_test_data.

Lemma catalog_names :
  fst <$> catalog =
  ["empty"; "single_byte"; "hello"; "repeated"; "pattern"; "longer_text";
   "ascii"; "large"; "mixed"; "numbers"; "large_100kb"; "large_1mb";
   "large_10mb"].
Proof. reflexivity. Qed.

Lemma catalog_NoDup : NoDup (fst <$> catalog).
Proof. rewrite catalog_names. apply (bool_decide_unpack _). vm_compute. exact I. Qed.

(** Writing other cases leaves a fixture alone. *)
Lemma written_other (ok : string -> bool) (room : string -> option N)
    (cases : list (string * bytes))
    (fs : gmap string bytes) (name : string) :
  name ∉ fst <$> cases ->
  written ok room cases fs !! fixture_path name = fs !! fixture_path name.
Proof.
  revert fs. induction cases as [|[n i] cases IH]; intros fs Hn; [reflexivity|].
  rewrite fmap_cons in Hn. apply not_elem_of_cons in Hn as [Hne Hn].
  rewrite written_cons, IH by exact Hn.
  unfold persist. destruct (ok (fixture_path n)); [|reflexivity].
  apply lookup_insert_ne. intros E. apply fixture_path_inj in E.
  cbn [fst] in Hne. congruence.
Qed.

(** With distinct names, every case whose file could be created ends up
    holding the compressed input of that case. *)
Lemma written_lookup (ok : string -> bool) (room : string -> option N)
    (cases : list (string * bytes))
    (fs : gmap string bytes) (name : string) (input : bytes) :
  NoDup (fst <$> cases) ->
  (name, input) ∈ cases ->
  ok (fixture_path name) = true ->
  room (fixture_path name) = None ->
  written ok room cases fs !! fixture_path name = Some (Compress input).
Proof.
  revert fs. induction cases as [|[n i] cases IH]; intros fs Hnd Hin Hok Hroom.
  - set_solver.
  - rewrite fmap_cons in Hnd. apply NoDup_cons in Hnd as [Hfresh Hnd].
    rewrite written_cons. apply elem_of_cons in Hin as [Heq|Hin].
    + injection Heq as -> ->. rewrite written_other by exact Hfresh.
      unfold persist. rewrite Hok, Hroom. apply lookup_insert_eq.
    + apply IH; assumption.
Qed.
End Fixtures.

(** Every input of the corpus is shorter than 4 GiB. *)
Lemma large10mb_size : size generate_test_data.large10mb = 10485700.
Proof.
  unfold generate_test_data.large10mb.
  assert (E : (10485760 ÷ 100)%Z = 104857%Z) by reflexivity. rewrite E.
  assert (Hs : size (for_range 0 104857
            (fun _ large10mb => large10mb ++ fill 100 "X"%byte) []) =
          100 * Z.to_N 104857).
  { apply (for_range_ind (fun i s => size s = 100 * Z.to_N i)).
    - lia.
    - reflexivity.
    - intros i s Hi Hs. rewrite size_app, size_fill, Hs. lia. }
  rewrite Hs. reflexivity.
Qed.

Lemma catalog_sizes :
  Forall (fun c : string * bytes => size (snd c) < 2 ^ 32)
    generate_test_data.catalog.
Proof.
  unfold generate_test_data.catalog.
  repeat (apply Forall_cons; split; [cbn [snd]|]); [..|apply Forall_nil; exact I].
  - vm_compute. reflexivity.
  - vm_compute. reflexivity.
  - vm_compute. reflexivity.
  - rewrite size_fill. reflexivity.
  - vm_compute. reflexivity.
  - vm_compute. reflexivity.
  - vm_compute. reflexivity.
  - unfold generate_test_data.large. rewrite size_fill. reflexivity.
  - vm_compute. reflexivity.
  - vm_compute. reflexivity.
  - unfold generate_test_data.large100k. rewrite size_string_resize. reflexivity.
  - unfold generate_test_data.large1mb. rewrite size_string_resize. reflexivity.
  - rewrite large10mb_size. reflexivity.
Qed.

(** C1. For every test case of the generator's catalog, the fixture file
    the generator leaves holds the output of [Compress] on the case's
    input, decompressing it with the reference codec gives back exactly
    that input, and the decompressed size is the length of the input. It
    is stated for a codec that decompresses what it compressed and for a
    run in which every fixture file could be created. *)
Theorem generator_round_trip (codec : Codec) (fs : gmap string bytes)
    (ok : string -> bool) :
  codec_round_trip codec ->
  (forall name input, (name, input) ∈ generate_test_data.catalog ->
     ok (generate_test_data.fixture_path name) = true) ->
  forall name input, (name, input) ∈ generate_test_data.catalog ->
    exists fixture decompressed : bytes,
      files (snd (run generate_test_data.main (start fs ok)))
        !! generate_test_data.fixture_path name = Some fixture /\
      fixture = Compress input /\
      Uncompress fixture = Some decompressed /\
      decompressed = input /\
      size decompressed = size input.
Proof.
  intros Hrt Hok name input Hin.
  exists (Compress input), input.
  unfold run. rewrite main_spec. cbn [snd files creatable start].
  split; [|split; [reflexivity|split; [|split; reflexivity]]].
  - apply written_lookup; [apply catalog_NoDup|exact Hin| |reflexivity].
    apply (Hok name input Hin).
  - apply Hrt.
    pose proof catalog_sizes as Hs. rewrite Forall_forall in Hs.
    apply (Hs (name, input) Hin).
Qed.

(** ** The codec in the Snappy stream format *)

Module LiteralSnappyProofs.
Import LiteralSnappy.

Lemma to_N_char (v : N) : v < 256 -> Byte.to_N (char (Z.of_N v)) = v.
Proof.
  intros Hv. unfold char.
  replace (Z.to_N (Z.of_N v mod 256)) with v
    by (rewrite Z.mod_small by lia; lia).
  destruct (Byte.of_N v) as [b|] eqn:E.
  - apply Byte.to_of_N, E.
  - apply Byte.of_N_None_iff in E. lia.
Qed.

Lemma parse_varint32_cons (left : nat) (shift acc : N) (b : byte) (rest : bytes) :
  parse_varint32 (S (S left)) shift acc (b :: rest) =
  if Byte.to_N b <? 128 then
    if (shift =? 28) && (16 <=? Byte.to_N b) then None
    else Some (acc + Byte.to_N b * 2 ^ shift, rest)
  else parse_varint32 (S left) (shift + 7)
         (acc + (Byte.to_N b - 128) * 2 ^ shift) rest.
Proof. reflexivity. Qed.

Lemma parse_encode_varint32 (left : nat) (v shift acc : N) (rest : bytes) :
  shift + 7 * N.of_nat left = 35 -> (1 <= left)%nat ->
  v * 2 ^ shift < 2 ^ 32 ->
  parse_varint32 left shift acc (encode_varint32 left v ++ rest) =
  Some (acc + v * 2 ^ shift, rest).
Proof.
  revert v shift acc.
  induction left as [|left IH]; intros v shift acc Hs Hl Hv; [lia|].
  cbn [encode_varint32].
  destruct (v <? 128) eqn:Hsmall.
  - apply N.ltb_lt in Hsmall. cbn [app parse_varint32].
    rewrite to_N_char by lia.
    replace (v <? 128) with true by (symmetry; apply N.ltb_lt; lia).
    destruct (shift =? 28) eqn:H28; [|reflexivity].
    apply N.eqb_eq in H28. subst shift.
    replace (16 <=? v) with false; [reflexivity|].
    symmetry. apply N.leb_gt. change (2 ^ 28) with 268435456 in Hv.
    change (2 ^ 32) with 4294967296 in Hv. lia.
  - apply N.ltb_ge in Hsmall.
    assert (Hpow : 2 ^ (shift + 7) = 128 * 2 ^ shift).
    { rewrite N.pow_add_r. change (2 ^ 7) with 128. lia. }
    assert (Hpos : 0 < 2 ^ shift) by (apply N.neq_0_lt_0, N.pow_nonzero; lia).
    destruct left as [|left'].
    { assert (shift = 28) by lia. subst shift.
      change (2 ^ 28) with 268435456 in Hv.
      change (2 ^ 32) with 4294967296 in Hv. lia. }
    pose proof (N.div_mod v 128 ltac:(lia)) as Hdm.
    assert (Hm : v mod 128 < 128) by (apply N.mod_lt; lia).
    set (m := v mod 128) in *. set (q := v / 128) in *. clearbody m q.
    cbn [app]. rewrite parse_varint32_cons.
    rewrite to_N_char by lia.
    replace (m + 128 <? 128) with false by (symmetry; apply N.ltb_ge; lia).
    rewrite IH; [f_equal; f_equal; rewrite Hpow; nia|lia|lia|].
    rewrite Hpow. nia.
Qed.

Lemma decode_literals (input out : bytes) (declared : N) (fuel : nat) :
  (2 * length input <= fuel)%nat ->
  size out + size input = declared ->
  decode fuel declared (flat_map (fun b => [x00; b]) input) out =
  Some (out ++ input).
Proof.
  revert out fuel.
  induction input as [|b input IH]; intros out fuel Hfuel Hsize.
  - destruct fuel; cbn [flat_map decode];
      (replace (size out =? declared) with true
         by (symmetry; apply N.eqb_eq; unfold size in *; cbn in *; lia));
      rewrite app_nil_r; reflexivity.
  - destruct fuel as [|fuel]; [cbn in Hfuel; lia|].
    cbn [flat_map app decode].
    assert (He : element declared x00 (b :: flat_map (fun b => [x00; b]) input) out
                 = Some (flat_map (fun b => [x00; b]) input, out ++ [b])).
    { unfold element. change (Byte.to_N x00) with 0.
      change (N.land 0 3) with 0. change (N.shiftr 0 2) with 0.
      change (N.to_nat (0 - 59)) with 0%nat. change (0 <? 60) with true.
      cbn [length Nat.ltb Nat.leb take drop mbind option_bind].
      change (0 + 1) with 1. change (N.to_nat 1) with 1%nat.
      cbn [take drop].
      replace (size (b :: flat_map (fun b0 => [x00; b0]) input) <? 1) with false
        by (symmetry; apply N.ltb_ge; unfold size; cbn [length]; lia).
      replace (declared <? size out + 1) with false
        by (symmetry; apply N.ltb_ge; unfold size in *; cbn [length] in *; lia).
      reflexivity. }
    rewrite He, IH.
    + rewrite <- app_assoc. reflexivity.
    + cbn [length] in Hfuel. lia.
    + rewrite size_app. unfold size in *. cbn [length] in *. lia.
Qed.

Lemma length_literals (input : bytes) :
  length (flat_map (fun b => [x00; b]) input) = (2 * length input)%nat.
Proof. induction input as [|b input IH]; cbn [flat_map length app]; lia. Qed.

Lemma round_trip : codec_round_trip codec.
Proof.
  intros input Hsize. cbn [Uncompress Compress codec].
  unfold uncompress, compress.
  rewrite N.mod_small by exact Hsize.
  rewrite (parse_encode_varint32 5 (size input) 0 0); [|lia|lia|cbn; lia].
  replace (0 + size input * 2 ^ 0) with (size input) by (cbn; lia).
  rewrite decode_literals; [reflexivity|rewrite length_literals; lia|].
  unfold size. cbn [length]. lia.
Qed.

Lemma decode_size (fuel : nat) (declared : N) (ip out r : bytes) :
  decode fuel declared ip out = Some r -> size r = declared.
Proof.
  revert ip out. induction fuel as [|fuel IH]; intros ip out H.
  - destruct ip as [|tag ip]; cbn [decode] in H; [|discriminate].
    destruct (size out =? declared) eqn:E; [|discriminate].
    injection H as <-. apply N.eqb_eq, E.
  - destruct ip as [|tag ip]; cbn [decode] in H.
    + destruct (size out =? declared) eqn:E; [|discriminate].
      injection H as <-. apply N.eqb_eq, E.
    + destruct (element declared tag ip out) as [[ip' out']|]; [|discriminate].
      apply (IH ip' out' H).
Qed.

Lemma declared_length : codec_declared_length codec.
Proof.
  intros compressed out H. cbn [Uncompress GetUncompressedLength codec] in *.
  unfold uncompress in H.
  destruct (parse_varint32 5 0 0 compressed) as [[declared ip]|]; [|discriminate].
  apply decode_size in H. rewrite H. reflexivity.
Qed.

Lemma rejects_empty : codec_rejects_empty codec.
Proof. reflexivity. Qed.
End LiteralSnappyProofs.

(** The decompressor reads copy elements too: a literal [a] followed by
    two copies at offset 1, of 64 and of 35 bytes. *)
Lemma uncompress_copy_elements :
  LiteralSnappy.uncompress [x64; x00; x61; xfe; x01; x00; x8a; x01; x00] =
  Some (fill 100 "a"%byte).
Proof. reflexivity. Qed.

(** [std::stoull] on some arguments. *)
Lemma stoull_examples :
  stoull "100" = inr 100 /\
  stoull " 42" = inr 42 /\
  stoull "13abc" = inr 13 /\
  stoull "-1" = inr (2 ^ 64 - 1) /\
  stoull "abc" = inl invalid_argument /\
  stoull "" = inl invalid_argument /\
  stoull "18446744073709551616" = inl out_of_range.
Proof. repeat split; reflexivity. Qed.

(** ** The validator *)

Lemma diagnostic_inj (f f' : failure) : diagnostic f = diagnostic f' -> f = f'.
Proof.
  destruct f, f'; cbn [diagnostic]; intros H; try discriminate H;
    try reflexivity; injection H; intros; subst; reflexivity.
Qed.

(** C4. A run of the validator on a parseable size argument ends as the
    four-stage pipeline decides. When a stage fails, the process exits
    with code 1 and the error stream holds exactly the diagnostic of that
    failure, which names the stage and carries the values involved (the
    path for a load failure, both sizes for a size mismatch): no other
    failure has the same diagnostic. Once the file was loaded, the
    standard output of a failing run starts with the name of the file and
    its compressed size. When all stages pass, the process exits with
    code 0, the error stream is empty and the output ends with the
    aggregate success message. *)
Theorem exit_contract (codec : Codec) (argv0 filename arg2 : string)
    (fs : gmap string bytes) (ok : string -> bool) (expectedSize : N) :
  stoull arg2 = inr expectedSize ->
  let r := run (validate_snappy.main argv0 [filename; arg2]) (start fs ok) in
  match pipeline filename (fs !! filename) expectedSize with
  | Fail f =>
      fst r = Exited 1 /\
      stderr (trace (snd r)) = diagnostic f /\
      (forall f', diagnostic f' = stderr (trace (snd r)) ->
                  f' = f /\ stage_of f' = stage_of f) /\
      (forall compressed, fs !! filename = Some compressed ->
         exists more,
           stdout (trace (snd r)) =
           [IStr "File: "; IStr filename; IEndl;
            IStr "Compressed size: "; ISize (size compressed);
            IStr " bytes"; IEndl] ++ more)
  | Pass =>
      fst r = Exited 0 /\
      stderr (trace (snd r)) = [] /\
      exists lines, stdout (trace (snd r)) = lines ++ success_marker
  end.
Proof.
  intros Harg. cbv zeta. unfold pipeline. run_validator. answer Harg.
  assert (Hfails : forall f t,
            stderr t = diagnostic f ->
            (forall compressed, fs !! filename = Some compressed ->
               exists more,
                 stdout t =
                 [IStr "File: "; IStr filename; IEndl;
                  IStr "Compressed size: "; ISize (size compressed);
                  IStr " bytes"; IEndl] ++ more) ->
            fst (Exited 1, World fs ok t (fun _ => false) (fun _ => None)) = Exited 1 /\
            stderr (trace (snd (Exited 1, World fs ok t (fun _ => false) (fun _ => None)))) = diagnostic f /\
            (forall f',
               diagnostic f' = stderr (trace (snd (Exited 1, World fs ok t (fun _ => false) (fun _ => None)))) ->
               f' = f /\ stage_of f' = stage_of f) /\
            (forall compressed, fs !! filename = Some compressed ->
               exists more,
                 stdout (trace (snd (Exited 1, World fs ok t (fun _ => false) (fun _ => None)))) =
                 [IStr "File: "; IStr filename; IEndl;
                  IStr "Compressed size: "; ISize (size compressed);
                  IStr " bytes"; IEndl] ++ more)).
  { intros f t Ht Hout. cbn [fst snd trace]. rewrite Ht.
    split; [reflexivity|]. split; [reflexivity|]. split; [|exact Hout].
    intros f' H. apply diagnostic_inj in H. subst f'. split; reflexivity. }
  destruct (fs !! filename) as [compressed|] eqn:Hfile;
    cbn [files creatable trace unreadable capacity if_path if_good orb negb
         fst snd];
    [|apply Hfails; [reflexivity|intros c Hc; discriminate Hc]].
  answer Hfile.
  destruct (IsValidCompressedBuffer compressed) eqn:Hvalid;
    cbn [files creatable trace unreadable capacity if_path if_good orb negb
         fst snd];
    [|apply Hfails; [reflexivity|intros c Hc; injection Hc as <-; cbn; eexists; reflexivity]].
  destruct (GetUncompressedLength compressed) as [declared|] eqn:Hlen;
    cbn [files creatable trace unreadable capacity if_path if_good orb negb
         fst snd];
    [|apply Hfails; [reflexivity|intros c Hc; injection Hc as <-; cbn; eexists; reflexivity]].
  destruct (declared =? expectedSize) eqn:Hdecl;
    cbn [files creatable trace unreadable capacity if_path if_good orb negb
         fst snd];
    [|apply Hfails; [reflexivity|intros c Hc; injection Hc as <-; cbn; eexists; reflexivity]].
  destruct (Uncompress compressed) as [decompressed|] eqn:Hout;
    cbn [files creatable trace unreadable capacity if_path if_good orb negb
         fst snd];
    [|apply Hfails; [reflexivity|intros c Hc; injection Hc as <-; cbn; eexists; reflexivity]].
  destruct (size decompressed =? expectedSize) eqn:Hfinal;
    cbn [files creatable trace unreadable capacity if_path if_good orb negb
         fst snd];
    [|apply Hfails; [reflexivity|intros c Hc; injection Hc as <-; cbn; eexists; reflexivity]].
  split; [reflexivity|]. split; [reflexivity|].
  rewrite stdout_app. eexists. f_equal.
Qed.

(** C2. Whatever byte sequence the file holds, when the structural
    validity check reports it invalid the validator exits with code 1 on
    the format diagnostic, and the validity check is the only call it made
    into the codec: [Uncompress] is never invoked on that stream. *)
Theorem invalid_stream_is_never_decompressed (codec : Codec)
    (argv0 filename arg2 : string) (fs : gmap string bytes)
    (ok : string -> bool) (expectedSize : N) (compressed : bytes) :
  stoull arg2 = inr expectedSize ->
  fs !! filename = Some compressed ->
  IsValidCompressedBuffer compressed = false ->
  let r := run (validate_snappy.main argv0 [filename; arg2]) (start fs ok) in
  fst r = Exited 1 /\
  stderr (trace (snd r)) = diagnostic InvalidFormat /\
  calls (trace (snd r)) = [CallIsValidCompressedBuffer compressed false] /\
  existsb is_uncompress (calls (trace (snd r))) = false.
Proof.
  intros Harg Hfile Hvalid. cbv zeta. run_validator.
  answer Harg. answer Hfile. answer Hvalid.
  repeat split; reflexivity.
Qed.

(** C3. For a structurally valid stream whose header declares a length
    other than the expected size, the validator fails at the
    declared-length check: it exits with code 1, the error stream holds
    the size-mismatch diagnostic with the expected and the declared value,
    and the codec was asked for validity and for the length only:
    [Uncompress] is not invoked. *)
Theorem declared_length_mismatch_detected (codec : Codec)
    (argv0 filename arg2 : string) (fs : gmap string bytes)
    (ok : string -> bool) (expectedSize declared : N) (compressed : bytes) :
  stoull arg2 = inr expectedSize ->
  fs !! filename = Some compressed ->
  IsValidCompressedBuffer compressed = true ->
  GetUncompressedLength compressed = Some declared ->
  declared <> expectedSize ->
  let r := run (validate_snappy.main argv0 [filename; arg2]) (start fs ok) in
  fst r = Exited 1 /\
  stderr (trace (snd r)) =
    [IStr "ERROR: Size mismatch! Expected "; ISize expectedSize;
     IStr " but got "; ISize declared; IEndl] /\
  calls (trace (snd r)) =
    [CallIsValidCompressedBuffer compressed true;
     CallGetUncompressedLength compressed (Some declared)] /\
  existsb is_uncompress (calls (trace (snd r))) = false.
Proof.
  intros Harg Hfile Hvalid Hlen Hne. cbv zeta. run_validator.
  answer Harg. answer Hfile. answer Hvalid. answer Hlen.
  apply N.eqb_neq in Hne. answer Hne.
  repeat split; reflexivity.
Qed.

Section ValidatorRuns.
Context {codec : Codec}.

(** A wrong number of arguments: the usage message and exit code 1. *)
Lemma main_usage (argv0 : string) (args : list string) (w : world) :
  length args <> 2%nat ->
  run (validate_snappy.main argv0 args) w =
  (Exited 1,
   emit ((Cerr <$> [IStr "Usage: "; IStr argv0;
                    IStr " <compressed_file> <expected_size>"; IEndl]) ++
         (Cerr <$> [IStr "Example: "; IStr argv0;
                    IStr " test.snappy 100"; IEndl])) w).
Proof.
  intros Hlen.
  destruct args as [|a [|b [|c args]]]; cbn [length] in Hlen; try lia;
    run_validator; rewrite <- app_assoc; reflexivity.
Qed.

(** [std::stoull] throws: nothing was printed and no file was opened. *)
Lemma main_throws (argv0 filename arg2 : string) (w : world) (e : exception) :
  stoull arg2 = inl e ->
  run (validate_snappy.main argv0 [filename; arg2]) w = (Aborted e, w).
Proof. intros Harg. run_validator. rewrite Harg. reflexivity. Qed.

(** A run on a parseable size: the exit code and the error stream follow
    the verdict of the pipeline, and a ratio is printed only by a run
    that passes, from the sizes of the decompressed and the compressed
    bytes. *)
Lemma main_outcome (argv0 filename arg2 : string) (fs : gmap string bytes)
    (ok : string -> bool) (expectedSize : N) :
  stoull arg2 = inr expectedSize ->
  let r := run (validate_snappy.main argv0 [filename; arg2]) (start fs ok) in
  match pipeline filename (fs !! filename) expectedSize with
  | Fail f =>
      fst r = Exited 1 /\ stderr (trace (snd r)) = diagnostic f /\
      forall d, IDouble d ∉ stdout (trace (snd r))
  | Pass =>
      fst r = Exited 0 /\ stderr (trace (snd r)) = [] /\
      exists compressed decompressed,
        fs !! filename = Some compressed /\
        IsValidCompressedBuffer compressed = true /\
        Uncompress compressed = Some decompressed /\
        forall d, IDouble d ∈ stdout (trace (snd r)) ->
                  d = Fdiv (size decompressed) (size compressed)
  end.
Proof.
  intros Harg. cbv zeta. unfold pipeline. run_validator. answer Harg.
  destruct (fs !! filename) as [compressed|] eqn:Hfile;
    cbn [files creatable trace unreadable capacity if_path if_good orb negb
         fst snd];
    [|repeat split; try reflexivity; intros d H; cbn in H; among H].
  answer Hfile.
  destruct (IsValidCompressedBuffer compressed) eqn:Hvalid;
    cbn [files creatable trace unreadable capacity if_path if_good orb negb
         fst snd];
    [|repeat split; try reflexivity; intros d H; cbn in H; among H].
  destruct (GetUncompressedLength compressed) as [declared|] eqn:Hlen;
    cbn [files creatable trace unreadable capacity if_path if_good orb negb
         fst snd];
    [|repeat split; try reflexivity; intros d H; cbn in H; among H].
  destruct (declared =? expectedSize) eqn:Hdecl;
    cbn [files creatable trace unreadable capacity if_path if_good orb negb
         fst snd];
    [|repeat split; try reflexivity; intros d H; cbn in H; among H].
  destruct (Uncompress compressed) as [decompressed|] eqn:Hout;
    cbn [files creatable trace unreadable capacity if_path if_good orb negb
         fst snd];
    [|repeat split; try reflexivity; intros d H; cbn in H; among H].
  destruct (size decompressed =? expectedSize) eqn:Hfinal;
    cbn [files creatable trace unreadable capacity if_path if_good orb negb
         fst snd];
    [|repeat split; try reflexivity; intros d H; cbn in H; among H].
  split; [reflexivity|]. split; [reflexivity|].
  exists compressed, decompressed.
  split; [reflexivity|]. split; [exact Hvalid|]. split; [exact Hout|].
  intros d H. cbn in H. among H. injection H as ->. reflexivity.
Qed.
End ValidatorRuns.

Section ValidatorGuarantees.
Context {codec : Codec}.

(** With a codec whose decompressed output has the declared length, the
    pipeline never ends on a mismatch of the decompressed size. *)
Lemma pipeline_never_mismatch (filename : string) (file : option bytes)
    (expectedSize expected actual : N) :
  codec_declared_length codec ->
  pipeline filename file expectedSize <>
  Fail (DecompressedSizeMismatch expected actual).
Proof.
  intros Hlaw. unfold pipeline.
  destruct file as [compressed|]; [|discriminate].
  destruct (IsValidCompressedBuffer compressed); [|discriminate].
  destruct (GetUncompressedLength compressed) as [declared|] eqn:Hlen;
    [|discriminate].
  destruct (declared =? expectedSize) eqn:Hdecl; [|discriminate].
  destruct (Uncompress compressed) as [decompressed|] eqn:Hout; [|discriminate].
  apply Hlaw in Hout. rewrite Hlen in Hout. injection Hout as ->.
  rewrite Hdecl. discriminate.
Qed.
End ValidatorGuarantees.

(** C9. Under the codec's guarantee that decompressed output has the
    declared length, the final size comparison of the validator cannot
    fail. No run, whatever its arguments and files, leaves the
    'Decompressed size mismatch' diagnostic on the error stream; and a run
    in which the declared length equals the expected size and
    decompression succeeds finds the decompressed size equal to the
    expected size and exits with code 0. *)
Theorem final_size_check_cannot_fail (codec : Codec) :
  codec_declared_length codec ->
  (forall (argv0 : string) (args : list string) (fs : gmap string bytes)
          (ok : string -> bool) (expected actual : N),
     stderr (trace (snd (run (validate_snappy.main argv0 args) (start fs ok))))
     <> diagnostic (DecompressedSizeMismatch expected actual)) /\
  (forall (argv0 filename arg2 : string) (fs : gmap string bytes)
          (ok : string -> bool) (expectedSize : N)
          (compressed decompressed : bytes),
     stoull arg2 = inr expectedSize ->
     fs !! filename = Some compressed ->
     IsValidCompressedBuffer compressed = true ->
     GetUncompressedLength compressed = Some expectedSize ->
     Uncompress compressed = Some decompressed ->
     size decompressed = expectedSize /\
     fst (run (validate_snappy.main argv0 [filename; arg2]) (start fs ok))
     = Exited 0).
Proof.
  intros Hlaw. split.
  - intros argv0 args fs ok expected actual.
    destruct (decide (length args = 2%nat)) as [Hlen|Hlen].
    + destruct args as [|filename [|arg2 [|c args]]]; try discriminate Hlen.
      destruct (stoull arg2) as [e|expectedSize] eqn:Harg.
      * rewrite (main_throws _ _ _ _ e Harg). discriminate.
      * pose proof (main_outcome argv0 filename arg2 fs ok expectedSize Harg) as H.
        cbv zeta in H.
        destruct (pipeline filename (fs !! filename) expectedSize) as [|f] eqn:Hp.
        -- destruct H as (_ & -> & _). discriminate.
        -- destruct H as (_ & -> & _). intros Hd. apply diagnostic_inj in Hd.
           subst f. revert Hp. apply pipeline_never_mismatch, Hlaw.
    + rewrite (main_usage argv0 args _ Hlen). discriminate.
  - intros argv0 filename arg2 fs ok expectedSize compressed decompressed
      Harg Hfile Hvalid Hlen Hout.
    assert (Hsize : size decompressed = expectedSize).
    { apply Hlaw in Hout. rewrite Hlen in Hout. injection Hout as ->. reflexivity. }
    split; [exact Hsize|]. run_validator.
    answer Harg. answer Hfile. answer Hvalid. answer Hlen.
    rewrite N.eqb_refl. cbn [negb]. answer Hout.
    apply N.eqb_eq in Hsize. rewrite Hsize. reflexivity.
Qed.

(** C10. With a codec that rejects the empty byte sequence as a stream,
    the validator never divides by zero: whatever its arguments and
    files, a ratio it prints has a divisor other than zero; and a run on a
    zero-length file exits with code 1 at the structural validity check,
    having printed only the file name and the compressed size, no ratio. *)
Theorem ratio_divisor_is_never_zero (codec : Codec) :
  codec_rejects_empty codec ->
  (forall (argv0 : string) (args : list string) (fs : gmap string bytes)
          (ok : string -> bool) (num den : N),
     IDouble (Fdiv num den)
       ∈ stdout (trace (snd (run (validate_snappy.main argv0 args) (start fs ok)))) ->
     den <> 0) /\
  (forall (argv0 filename arg2 : string) (fs : gmap string bytes)
          (ok : string -> bool) (expectedSize : N),
     stoull arg2 = inr expectedSize ->
     fs !! filename = Some [] ->
     let r := run (validate_snappy.main argv0 [filename; arg2]) (start fs ok) in
     fst r = Exited 1 /\
     stderr (trace (snd r)) = diagnostic InvalidFormat /\
     stdout (trace (snd r)) =
       [IStr "File: "; IStr filename; IEndl;
        IStr "Compressed size: "; ISize 0; IStr " bytes"; IEndl]).
Proof.
  intros Hlaw. split.
  - intros argv0 args fs ok num den Hin.
    destruct (decide (length args = 2%nat)) as [Hlen|Hlen].
    + destruct args as [|filename [|arg2 [|c args]]]; try discriminate Hlen.
      destruct (stoull arg2) as [e|expectedSize] eqn:Harg.
      * rewrite (main_throws _ _ _ _ e Harg) in Hin. cbn in Hin. among Hin.
      * pose proof (main_outcome argv0 filename arg2 fs ok expectedSize Harg) as H.
        cbv zeta in H.
        destruct (pipeline filename (fs !! filename) expectedSize) as [|f].
        -- destruct H as (_ & _ & compressed & decompressed & _ & Hvalid & _ & Hd).
           apply Hd in Hin. injection Hin as _ ->.
           destruct compressed as [|b compressed].
           ++ unfold codec_rejects_empty in Hlaw. congruence.
           ++ unfold size. cbn [length]. lia.
        -- destruct H as (_ & _ & Hd). destruct (Hd _ Hin).
    + rewrite (main_usage argv0 args _ Hlen) in Hin. cbn in Hin. among Hin.
  - intros argv0 filename arg2 fs ok expectedSize Harg Hfile. cbv zeta.
    run_validator. answer Harg. answer Hfile.
    unfold codec_rejects_empty in Hlaw. answer Hlaw.
    repeat split; reflexivity.
Qed.

(** C6, as the code has it. The validator does not check its second
    argument itself: it uses it through [std::stoull] only. When
    [std::stoull] throws on it (no decimal digit after optional white
    space and sign, or a value above 2^64 - 1), the process is aborted by
    the uncaught exception before it has printed anything or opened the
    file; there is no diagnostic and no exit code of its own. Any other
    argument is accepted with the value [std::stoull] converts, whatever
    follows the digits: the run is the very run on any other argument
    that converts to the same value. *)
Theorem size_argument_is_left_to_stoull (codec : Codec)
    (argv0 filename arg2 : string) (w : world) :
  (forall e, stoull arg2 = inl e ->
     run (validate_snappy.main argv0 [filename; arg2]) w = (Aborted e, w)) /\
  (forall arg2', stoull arg2' = stoull arg2 ->
     run (validate_snappy.main argv0 [filename; arg2']) w =
     run (validate_snappy.main argv0 [filename; arg2]) w).
Proof.
  split.
  - intros e Harg. apply main_throws, Harg.
  - intros arg2' Hsame.
    unfold run, validate_snappy.main, bind, std_stoull. rewrite Hsame.
    reflexivity.
Qed.

(** ** The generator's summary and its unchecked file stream *)

(** C5, as the code has it. The summary of every test case reports the
    compression ratio as the input size divided by the compressed size.
    No input is special-cased: the ratio line is printed for every case,
    the empty input included, with the compressed size as the divisor
    whatever it is. *)
Theorem ratio_is_reported_for_every_case (codec : Codec) (name : string)
    (input : bytes) (w : world) :
  stdout (trace (snd (generate_test_data.writeTestCase name input w))) =
  stdout (trace w) ++
  [IStr name; IStr ":"; IEndl;
   IStr "  Input size: "; ISize (size input); IStr " bytes"; IEndl;
   IStr "  Compressed size: "; ISize (size (Compress input)); IStr " bytes"; IEndl;
   IStr "  Ratio: "; IDouble (Fdiv (size input) (size (Compress input)));
   IStr "x"; IEndl;
   IStr "  Saved to: "; IStr (generate_test_data.fixture_path name); IEndl;
   IEndl].
Proof.
  rewrite writeTestCase_spec. cbn [snd trace]. rewrite stdout_app.
  reflexivity.
Qed.

(** C5 fails as stated: the empty input is not special-cased. With a
    compressor of the Snappy format, whose output for the empty input is
    the one-byte length preamble, the ratio of the [empty] case is
    reported, as 0 / 1; and with a compressor that returns an empty
    stream, the division by the compressed size 0 is carried out and
    reported like any other. *)
Lemma empty_input_ratio_is_reported :
  stdout (trace (snd (@generate_test_data.writeTestCase LiteralSnappy.codec
                        "empty" (lit "") (start ∅ writable)))) =
  [IStr "empty"; IStr ":"; IEndl;
   IStr "  Input size: "; ISize 0; IStr " bytes"; IEndl;
   IStr "  Compressed size: "; ISize 1; IStr " bytes"; IEndl;
   IStr "  Ratio: "; IDouble (Fdiv 0 1); IStr "x"; IEndl;
   IStr "  Saved to: "; IStr "Tests/SnappySwiftTests/TestData/empty.snappy";
   IEndl; IEndl] /\
  stdout (trace (snd (@generate_test_data.writeTestCase bare_codec
                        "empty" (lit "") (start ∅ writable)))) =
  [IStr "empty"; IStr ":"; IEndl;
   IStr "  Input size: "; ISize 0; IStr " bytes"; IEndl;
   IStr "  Compressed size: "; ISize 0; IStr " bytes"; IEndl;
   IStr "  Ratio: "; IDouble (Fdiv 0 0); IStr "x"; IEndl;
   IStr "  Saved to: "; IStr "Tests/SnappySwiftTests/TestData/empty.snappy";
   IEndl; IEndl].
Proof. split; reflexivity. Qed.

Section UncheckedStream.
Context {codec : Codec}.
Import generate_test_data.

Lemma written_unwritable (ok : string -> bool) (room : string -> option N)
    (cases : list (string * bytes))
    (fs : gmap string bytes) :
  (forall path, ok path = false) -> written ok room cases fs = fs.
Proof.
  intros Hno. revert fs.
  induction cases as [|[name input] cases IH]; intros fs; [reflexivity|].
  rewrite written_cons, IH. unfold persist. rewrite Hno. reflexivity.
Qed.

Lemma main_exits_zero (w : world) : fst (run main w) = Exited 0.
Proof. unfold run. rewrite main_spec. reflexivity. Qed.
End UncheckedStream.

(** C7, as the code has it. The generator never looks at the state of the
    file stream. When the fixture file of a test case cannot be created,
    [writeTestCase] still completes normally: no file is changed, nothing
    goes to the error stream, and the summary of the case is printed in
    full, its 'Saved to' line included. And [main] exits with code 0
    whatever happened to the files. *)
Theorem failed_write_goes_unnoticed (codec : Codec) (name : string)
    (input : bytes) (w : world) :
  creatable w (generate_test_data.fixture_path name) = false ->
  (exists w',
     generate_test_data.writeTestCase name input w = (Value tt, w') /\
     files w' = files w /\
     stderr (trace w') = stderr (trace w) /\
     stdout (trace w') =
       stdout (trace w) ++
       [IStr name; IStr ":"; IEndl;
        IStr "  Input size: "; ISize (size input); IStr " bytes"; IEndl;
        IStr "  Compressed size: "; ISize (size (Compress input));
        IStr " bytes"; IEndl;
        IStr "  Ratio: "; IDouble (Fdiv (size input) (size (Compress input)));
        IStr "x"; IEndl;
        IStr "  Saved to: "; IStr (generate_test_data.fixture_path name); IEndl;
        IEndl]) /\
  (forall w0, fst (run generate_test_data.main w0) = Exited 0).
Proof.
  intros Hno. split; [|apply main_exits_zero].
  eexists. split; [apply writeTestCase_spec|].
  cbn [files trace]. unfold persist. rewrite Hno.
  split; [reflexivity|]. rewrite stderr_app, stdout_app.
  split; [|reflexivity]. cbn. apply app_nil_r.
Qed.

(** C7 fails as stated: on a file system where no file can be created,
    the [hello] case completes normally with its 'Saved to' line printed
    and nothing on the error stream, and the whole run exits with code 0
    having persisted no fixture at all. *)
Lemma read_only_run_reports_success :
  (let r := @generate_test_data.writeTestCase LiteralSnappy.codec
              "hello" (lit "Hello, World!") (start ∅ read_only) in
   fst r = Value tt /\
   files (snd r) = ∅ /\
   stderr (trace (snd r)) = [] /\
   stdout (trace (snd r)) =
     [IStr "hello"; IStr ":"; IEndl;
      IStr "  Input size: "; ISize 13; IStr " bytes"; IEndl;
      IStr "  Compressed size: "; ISize 27; IStr " bytes"; IEndl;
      IStr "  Ratio: "; IDouble (Fdiv 13 27); IStr "x"; IEndl;
      IStr "  Saved to: "; IStr "Tests/SnappySwiftTests/TestData/hello.snappy";
      IEndl; IEndl]) /\
  (let r := run (@generate_test_data.main LiteralSnappy.codec)
              (start ∅ read_only) in
   fst r = Exited 0 /\ files (snd r) = ∅).
Proof.
  split.
  - cbv zeta. repeat split; reflexivity.
  - cbv zeta. unfold run. rewrite main_spec. cbn [fst snd files creatable start].
    split; [reflexivity|]. apply written_unwritable. reflexivity.
Qed.

(** C6 fails as stated: the argument [abc] holds no number, and the
    validator is aborted by the uncaught [std::invalid_argument] without a
    diagnostic of its own and without an exit code; and the argument
    [13abc], which is no integer either, is accepted as 13, so that the
    run on the [hello] fixture passes. *)
Lemma unparseable_size_aborts_or_passes :
  run (@validate_snappy.main LiteralSnappy.codec "validate_snappy"
         ["hello.snappy"; "abc"]) (start sample_files writable)
  = (Aborted invalid_argument, start sample_files writable) /\
  fst (run (@validate_snappy.main LiteralSnappy.codec "validate_snappy"
              ["hello.snappy"; "13abc"]) (start sample_files writable))
  = Exited 0.
Proof. split; reflexivity. Qed.

(** ** The theorems at concrete inputs *)

(** The argument [abc] aborts the run, and the argument [13abc] gives the
    run of the argument [13]. *)
Lemma size_argument_is_left_to_stoull_witness :
  run (@validate_snappy.main LiteralSnappy.codec "validate_snappy"
         ["hello.snappy"; "abc"]) (start sample_files writable)
  = (Aborted invalid_argument, start sample_files writable) /\
  run (@validate_snappy.main LiteralSnappy.codec "validate_snappy"
         ["hello.snappy"; "13abc"]) (start sample_files writable)
  = run (@validate_snappy.main LiteralSnappy.codec "validate_snappy"
           ["hello.snappy"; "13"]) (start sample_files writable).
Proof.
  split.
  - apply (proj1 (size_argument_is_left_to_stoull LiteralSnappy.codec
                    "validate_snappy" "hello.snappy" "abc"
                    (start sample_files writable))).
    reflexivity.
  - apply (proj2 (size_argument_is_left_to_stoull LiteralSnappy.codec
                    "validate_snappy" "hello.snappy" "13"
                    (start sample_files writable))).
    reflexivity.
Defined.

(** The round trip at the [hello] case, with the codec in the Snappy stream
    format and every fixture file creatable. *)
Lemma generator_round_trip_witness :
  exists fixture decompressed : bytes,
    files (snd (run (@generate_test_data.main LiteralSnappy.codec)
                  (start ∅ writable)))
      !! generate_test_data.fixture_path "hello" = Some fixture /\
    fixture = LiteralSnappy.compress (lit "Hello, World!") /\
    LiteralSnappy.uncompress fixture = Some decompressed /\
    decompressed = lit "Hello, World!" /\
    size decompressed = size (lit "Hello, World!").
Proof.
  apply (generator_round_trip LiteralSnappy.codec ∅ writable
           LiteralSnappyProofs.round_trip (fun _ _ _ => eq_refl)).
  apply list_elem_of_lookup. exists 2%nat. reflexivity.
Defined.

(** A file that is no Snappy stream is rejected without being
    decompressed. *)
Lemma invalid_stream_is_never_decompressed_witness :
  let r := run (@validate_snappy.main LiteralSnappy.codec "validate_snappy"
                  ["garbage.snappy"; "7"]) (start sample_files writable) in
  fst r = Exited 1 /\
  stderr (trace (snd r)) = diagnostic InvalidFormat /\
  calls (trace (snd r)) = [CallIsValidCompressedBuffer (lit "garbage") false] /\
  existsb is_uncompress (calls (trace (snd r))) = false.
Proof.
  apply (invalid_stream_is_never_decompressed LiteralSnappy.codec
           "validate_snappy" "garbage.snappy" "7" sample_files writable 7
           (lit "garbage")); reflexivity.
Defined.

(** The [hello] fixture, 13 bytes long, validated against the expected
    size 12. *)
Lemma declared_length_mismatch_detected_witness :
  let r := run (@validate_snappy.main LiteralSnappy.codec "validate_snappy"
                  ["hello.snappy"; "12"]) (start sample_files writable) in
  fst r = Exited 1 /\
  stderr (trace (snd r)) =
    [IStr "ERROR: Size mismatch! Expected "; ISize 12;
     IStr " but got "; ISize 13; IEndl] /\
  calls (trace (snd r)) =
    [CallIsValidCompressedBuffer
       (LiteralSnappy.compress (lit "Hello, World!")) true;
     CallGetUncompressedLength
       (LiteralSnappy.compress (lit "Hello, World!")) (Some 13)] /\
  existsb is_uncompress (calls (trace (snd r))) = false.
Proof.
  apply (declared_length_mismatch_detected LiteralSnappy.codec
           "validate_snappy" "hello.snappy" "12" sample_files writable 12 13
           (LiteralSnappy.compress (lit "Hello, World!")));
    [reflexivity|reflexivity|reflexivity|reflexivity|discriminate].
Defined.

(** The [hello] fixture validated against its size passes all stages. *)
Lemma exit_contract_witness :
  let r := run (@validate_snappy.main LiteralSnappy.codec "validate_snappy"
                  ["hello.snappy"; "13"]) (start sample_files writable) in
  fst r = Exited 0 /\
  stderr (trace (snd r)) = [] /\
  exists lines, stdout (trace (snd r)) = lines ++ success_marker.
Proof.
  apply (exit_contract LiteralSnappy.codec "validate_snappy" "hello.snappy"
           "13" sample_files writable 13).
  reflexivity.
Defined.

(** The [hello] fixture: past the declared-length check and a successful
    decompression, the final comparison passes. *)
Lemma final_size_check_cannot_fail_witness :
  size (lit "Hello, World!") = 13 /\
  fst (run (@validate_snappy.main LiteralSnappy.codec "validate_snappy"
              ["hello.snappy"; "13"]) (start sample_files writable))
  = Exited 0.
Proof.
  apply (proj2 (final_size_check_cannot_fail LiteralSnappy.codec
                  LiteralSnappyProofs.declared_length)
           "validate_snappy" "hello.snappy" "13" sample_files writable 13
           (LiteralSnappy.compress (lit "Hello, World!")) (lit "Hello, World!"));
    reflexivity.
Defined.

(** A zero-length file stops at the structural validity check. *)
Lemma ratio_divisor_is_never_zero_witness :
  let r := run (@validate_snappy.main LiteralSnappy.codec "validate_snappy"
                  ["empty.snappy"; "0"]) (start sample_files writable) in
  fst r = Exited 1 /\
  stderr (trace (snd r)) = diagnostic InvalidFormat /\
  stdout (trace (snd r)) =
    [IStr "File: "; IStr "empty.snappy"; IEndl;
     IStr "Compressed size: "; ISize 0; IStr " bytes"; IEndl].
Proof.
  apply (proj2 (ratio_divisor_is_never_zero LiteralSnappy.codec
                  LiteralSnappyProofs.rejects_empty)
           "validate_snappy" "empty.snappy" "0" sample_files writable 0);
    reflexivity.
Defined.

(** The [hello] case on a file system where no file can be created. *)
Lemma failed_write_goes_unnoticed_witness :
  (exists w',
     @generate_test_data.writeTestCase LiteralSnappy.codec "hello"
       (lit "Hello, World!") (start ∅ read_only) = (Value tt, w') /\
     files w' = ∅ /\
     stderr (trace w') = [] /\
     stdout (trace w') =
       [] ++
       [IStr "hello"; IStr ":"; IEndl;
        IStr "  Input size: "; ISize (size (lit "Hello, World!"));
        IStr " bytes"; IEndl;
        IStr "  Compressed size: ";
        ISize (size (LiteralSnappy.compress (lit "Hello, World!")));
        IStr " bytes"; IEndl;
        IStr "  Ratio: ";
        IDouble (Fdiv (size (lit "Hello, World!"))
                   (size (LiteralSnappy.compress (lit "Hello, World!"))));
        IStr "x"; IEndl;
        IStr "  Saved to: "; IStr (generate_test_data.fixture_path "hello");
        IEndl; IEndl]) /\
  (forall w0,
     fst (run (@generate_test_data.main LiteralSnappy.codec) w0) = Exited 0).
Proof.
  apply (failed_write_goes_unnoticed LiteralSnappy.codec "hello"
           (lit "Hello, World!") (start ∅ read_only)).
  reflexivity.
Defined.

(** * Further properties of the two programs *)

(** ** The validator *)

(** X1. Called with any number of arguments other than two, the validator
    prints the two usage lines, which name the program as it was invoked,
    on the error stream and exits with code 1. It prints nothing on the
    standard output, calls nothing of the codec and leaves the files
    alone. *)
Theorem wrong_argument_count_prints_usage (codec : Codec) (argv0 : string)
    (args : list string) (fs : gmap string bytes) (ok : string -> bool) :
  length args <> 2%nat ->
  let r := run (validate_snappy.main argv0 args) (start fs ok) in
  fst r = Exited 1 /\
  stderr (trace (snd r)) =
    [IStr "Usage: "; IStr argv0; IStr " <compressed_file> <expected_size>";
     IEndl;
     IStr "Example: "; IStr argv0; IStr " test.snappy 100"; IEndl] /\
  stdout (trace (snd r)) = [] /\
  calls (trace (snd r)) = [] /\
  files (snd r) = fs.
Proof.
  intros Hlen. cbv zeta. rewrite (main_usage argv0 args _ Hlen).
  repeat split; reflexivity.
Qed.

(** No argument at all. *)
Lemma wrong_argument_count_prints_usage_witness :
  let r := run (@validate_snappy.main LiteralSnappy.codec "./validate_snappy" [])
             (start sample_files writable) in
  fst r = Exited 1 /\
  stderr (trace (snd r)) =
    [IStr "Usage: "; IStr "./validate_snappy";
     IStr " <compressed_file> <expected_size>"; IEndl;
     IStr "Example: "; IStr "./validate_snappy"; IStr " test.snappy 100";
     IEndl] /\
  stdout (trace (snd r)) = [] /\
  calls (trace (snd r)) = [] /\
  files (snd r) = sample_files.
Proof.
  apply (wrong_argument_count_prints_usage LiteralSnappy.codec
           "./validate_snappy" [] sample_files writable).
  discriminate.
Defined.

(** X2. Each stage gates the next. On a parseable size, the calls a run
    makes into the codec are the validity check, the length query and the
    decompression, in this order, each on the bytes of the file, and the
    run stops calling at the stage that fails: no call when the file
    cannot be opened, the validity check alone on an invalid stream, no
    decompression when the declared length is missing or wrong. *)
Theorem codec_calls_stop_at_failing_stage (codec : Codec)
    (argv0 filename arg2 : string) (fs : gmap string bytes)
    (ok : string -> bool) (expectedSize : N) :
  stoull arg2 = inr expectedSize ->
  calls (trace (snd (run (validate_snappy.main argv0 [filename; arg2])
                       (start fs ok)))) =
  match fs !! filename with
  | None => []
  | Some compressed =>
      take (calls_made (pipeline filename (Some compressed) expectedSize))
        [CallIsValidCompressedBuffer compressed
           (IsValidCompressedBuffer compressed);
         CallGetUncompressedLength compressed
           (GetUncompressedLength compressed);
         CallUncompress compressed (Uncompress compressed)]
  end.
Proof.
  intros Harg. unfold pipeline. run_validator. answer Harg.
  destruct (fs !! filename) as [compressed|] eqn:Hfile;
    cbn [files creatable trace unreadable capacity if_path if_good orb negb
         fst snd]; [|reflexivity].
  answer Hfile.
  destruct (IsValidCompressedBuffer compressed) eqn:Hvalid;
    cbn [files creatable trace unreadable capacity if_path if_good orb negb
         fst snd]; [|reflexivity].
  destruct (GetUncompressedLength compressed) as [declared|] eqn:Hlen;
    cbn [files creatable trace unreadable capacity if_path if_good orb negb
         fst snd]; [|reflexivity].
  destruct (declared =? expectedSize) eqn:Hdecl;
    cbn [files creatable trace unreadable capacity if_path if_good orb negb
         fst snd]; [|reflexivity].
  destruct (Uncompress compressed) as [decompressed|] eqn:Hout;
    cbn [files creatable trace unreadable capacity if_path if_good orb negb
         fst snd]; [|reflexivity].
  destruct (size decompressed =? expectedSize) eqn:Hfinal;
    cbn [files creatable trace unreadable capacity if_path if_good orb negb
         fst snd]; reflexivity.
Qed.

(** The [hello] fixture against the wrong size 12: two calls. *)
Lemma codec_calls_stop_at_failing_stage_witness :
  calls (trace (snd (run (@validate_snappy.main LiteralSnappy.codec
                            "validate_snappy" ["hello.snappy"; "12"])
                       (start sample_files writable)))) =
  [CallIsValidCompressedBuffer
     (LiteralSnappy.compress (lit "Hello, World!")) true;
   CallGetUncompressedLength
     (LiteralSnappy.compress (lit "Hello, World!")) (Some 13)].
Proof.
  apply (codec_calls_stop_at_failing_stage LiteralSnappy.codec
           "validate_snappy" "hello.snappy" "12" sample_files writable 12).
  reflexivity.
Defined.

(** X3. The success message is the verdict: whatever the arguments and
    the files, the standard output of a run ends with the aggregate
    success message if and only if the process exits with code 0. *)
Theorem success_marker_iff_exit_zero (codec : Codec) (argv0 : string)
    (args : list string) (fs : gmap string bytes) (ok : string -> bool) :
  (exists lines,
     stdout (trace (snd (run (validate_snappy.main argv0 args) (start fs ok))))
     = lines ++ success_marker) <->
  fst (run (validate_snappy.main argv0 args) (start fs ok)) = Exited 0.
Proof.
  unfold success_marker.
  destruct (decide (length args = 2%nat)) as [Hlen|Hlen].
  2: { rewrite (main_usage argv0 args _ Hlen).
       split; [intros [lines H]; not_the_end H|discriminate]. }
  destruct args as [|filename [|arg2 [|c args]]]; try discriminate Hlen.
  destruct (stoull arg2) as [e|expectedSize] eqn:Harg.
  { rewrite (main_throws _ _ _ _ e Harg).
    split; [intros [lines H]; not_the_end H|discriminate]. }
  run_validator. answer Harg.
  destruct (fs !! filename) as [compressed|] eqn:Hfile;
    cbn [files creatable trace unreadable capacity if_path if_good orb negb
         fst snd];
    [|split; [intros [lines H]; not_the_end H|discriminate]].
  answer Hfile.
  destruct (IsValidCompressedBuffer compressed) eqn:Hvalid;
    cbn [files creatable trace unreadable capacity if_path if_good orb negb
         fst snd];
    [|split; [intros [lines H]; not_the_end H|discriminate]].
  destruct (GetUncompressedLength compressed) as [declared|] eqn:Hdl;
    cbn [files creatable trace unreadable capacity if_path if_good orb negb
         fst snd];
    [|split; [intros [lines H]; not_the_end H|discriminate]].
  destruct (declared =? expectedSize) eqn:Hdecl;
    cbn [files creatable trace unreadable capacity if_path if_good orb negb
         fst snd];
    [|split; [intros [lines H]; not_the_end H|discriminate]].
  destruct (Uncompress compressed) as [decompressed|] eqn:Hout;
    cbn [files creatable trace unreadable capacity if_path if_good orb negb
         fst snd];
    [|split; [intros [lines H]; not_the_end H|discriminate]].
  destruct (size decompressed =? expectedSize) eqn:Hfinal;
    cbn [files creatable trace unreadable capacity if_path if_good orb negb
         fst snd];
    [|split; [intros [lines H]; not_the_end H|discriminate]].
  split; [reflexivity|]. intros _.
  rewrite stdout_app. eexists. f_equal.
Qed.

(** X4. The validator only reads: whatever its arguments, a run leaves
    every file as it found it and never calls the compressor. *)
Theorem validator_is_read_only (codec : Codec) (argv0 : string)
    (args : list string) (fs : gmap string bytes) (ok : string -> bool) :
  files (snd (run (validate_snappy.main argv0 args) (start fs ok))) = fs /\
  forall input compressed,
    CallCompress input compressed
      ∉ calls (trace (snd (run (validate_snappy.main argv0 args)
                             (start fs ok)))).
Proof.
  destruct (decide (length args = 2%nat)) as [Hlen|Hlen].
  2: { rewrite (main_usage argv0 args _ Hlen).
       split; [reflexivity|]. intros i c H. cbn in H. among H. }
  destruct args as [|filename [|arg2 [|c args]]]; try discriminate Hlen.
  destruct (stoull arg2) as [e|expectedSize] eqn:Harg.
  { rewrite (main_throws _ _ _ _ e Harg).
    split; [reflexivity|]. intros i c H. cbn in H. among H. }
  run_validator. answer Harg.
  destruct (fs !! filename) as [compressed|] eqn:Hfile;
    cbn [files creatable trace unreadable capacity if_path if_good orb negb
         fst snd];
    [|split; [reflexivity|]; intros i c H; cbn in H; among H].
  answer Hfile.
  destruct (IsValidCompressedBuffer compressed) eqn:Hvalid;
    cbn [files creatable trace unreadable capacity if_path if_good orb negb
         fst snd];
    [|split; [reflexivity|]; intros i c H; cbn in H; among H].
  destruct (GetUncompressedLength compressed) as [declared|] eqn:Hdl;
    cbn [files creatable trace unreadable capacity if_path if_good orb negb
         fst snd];
    [|split; [reflexivity|]; intros i c H; cbn in H; among H].
  destruct (declared =? expectedSize) eqn:Hdecl;
    cbn [files creatable trace unreadable capacity if_path if_good orb negb
         fst snd];
    [|split; [reflexivity|]; intros i c H; cbn in H; among H].
  destruct (Uncompress compressed) as [decompressed|] eqn:Hout;
    cbn [files creatable trace unreadable capacity if_path if_good orb negb
         fst snd];
    [|split; [reflexivity|]; intros i c H; cbn in H; among H].
  destruct (size decompressed =? expectedSize) eqn:Hfinal;
    cbn [files creatable trace unreadable capacity if_path if_good orb negb
         fst snd];
    split; try reflexivity; intros i c H; cbn in H; among H.
Qed.

(** An unreadable file: the stream opens, and the read aborts the run
    before anything was printed. *)
Lemma main_unreadable {codec : Codec} (argv0 filename arg2 : string)
    (w : world) (expectedSize : N) :
  stoull arg2 = inr expectedSize ->
  unreadable w filename = true ->
  run (validate_snappy.main argv0 [filename; arg2]) w = (Aborted ios_failure, w).
Proof.
  intros Harg Hdir. run_validator. answer Harg. answer Hdir.
  destruct w; reflexivity.
Qed.

(** X10. A run of the validator ends in one of three ways, whatever its
    arguments and its environment: with exit code 0, with exit code 1, or
    aborted by an uncaught exception. It is aborted only when it was
    given exactly two arguments and either the conversion of the second
    one by [std::stoull] throws, or the size converts and the file opens
    but cannot be read, as a directory does. *)
Theorem exit_status_is_zero_one_or_abort (codec : Codec) (argv0 : string)
    (args : list string) (w : world) :
  match fst (run (validate_snappy.main argv0 args) w) with
  | Exited code => code = 0%Z \/ code = 1%Z
  | Aborted e =>
      exists filename arg2,
        args = [filename; arg2] /\
        (stoull arg2 = inl e \/
         (e = ios_failure /\ unreadable w filename = true /\
          exists expectedSize, stoull arg2 = inr expectedSize))
  end.
Proof.
  destruct (decide (length args = 2%nat)) as [Hlen|Hlen].
  2: { rewrite (main_usage argv0 args _ Hlen). right. reflexivity. }
  destruct args as [|filename [|arg2 [|c args]]]; try discriminate Hlen.
  destruct (stoull arg2) as [e|expectedSize] eqn:Harg.
  { rewrite (main_throws _ _ _ _ e Harg). exists filename, arg2.
    split; [reflexivity|left; exact Harg]. }
  destruct (unreadable w filename) eqn:Hdir.
  { rewrite (main_unreadable _ _ _ _ expectedSize Harg Hdir).
    exists filename, arg2. split; [reflexivity|right].
    split; [reflexivity|]. split; [exact Hdir|].
    exists expectedSize. exact Harg. }
  run_validator. answer Harg. answer Hdir.
  destruct (files w !! filename) as [compressed|] eqn:Hfile;
    cbn [files creatable trace unreadable capacity if_path if_good orb negb
         fst snd];
    [|right; reflexivity].
  answer Hdir. answer Hfile.
  destruct (IsValidCompressedBuffer compressed) eqn:Hvalid;
    cbn [files creatable trace unreadable capacity if_path if_good orb negb
         fst snd];
    [|right; reflexivity].
  destruct (GetUncompressedLength compressed) as [declared|] eqn:Hdl;
    cbn [files creatable trace unreadable capacity if_path if_good orb negb
         fst snd];
    [|right; reflexivity].
  destruct (declared =? expectedSize) eqn:Hdecl;
    cbn [files creatable trace unreadable capacity if_path if_good orb negb
         fst snd];
    [|right; reflexivity].
  destruct (Uncompress compressed) as [decompressed|] eqn:Hout;
    cbn [files creatable trace unreadable capacity if_path if_good orb negb
         fst snd];
    [|right; reflexivity].
  destruct (size decompressed =? expectedSize) eqn:Hfinal;
    cbn [files creatable trace unreadable capacity if_path if_good orb negb
         fst snd];
    [left|right]; reflexivity.
Qed.

(** A directory given as the file, with a size that converts. *)
Lemma directory_aborts_the_run :
  run (@validate_snappy.main LiteralSnappy.codec "validate_snappy"
         ["TestData"; "0"])
    (start_in sample_files writable (String.eqb "TestData") (fun _ => None))
  = (Aborted ios_failure,
     start_in sample_files writable (String.eqb "TestData") (fun _ => None)).
Proof. reflexivity. Qed.

(** ** The generator *)

Section GeneratorFiles.
Context {codec : Codec}.
Import generate_test_data.

(** A path that is no fixture path of [cases] keeps its content. *)
Lemma written_untouched (ok : string -> bool) (room : string -> option N)
    (cases : list (string * bytes))
    (fs : gmap string bytes) (path : string) :
  (forall name input, (name, input) ∈ cases -> path <> fixture_path name) ->
  written ok room cases fs !! path = fs !! path.
Proof.
  revert fs. induction cases as [|[n i] cases IH]; intros fs Hp; [reflexivity|].
  rewrite written_cons, IH.
  - unfold persist. destruct (ok (fixture_path n)); [|reflexivity].
    apply lookup_insert_ne. intros E. apply (Hp n i); [left|congruence].
  - intros name input Hin. apply (Hp name input). right. exact Hin.
Qed.

(** With distinct names, a case's file holds what fitted of its compressed
    input when it could be created and is left as it was when not. *)
Lemma written_case (ok : string -> bool) (room : string -> option N)
    (cases : list (string * bytes))
    (fs : gmap string bytes) (name : string) (input : bytes) :
  NoDup (fst <$> cases) ->
  (name, input) ∈ cases ->
  written ok room cases fs !! fixture_path name =
  if ok (fixture_path name)
  then Some (limit (room (fixture_path name)) (Compress input))
  else fs !! fixture_path name.
Proof.
  revert fs. induction cases as [|[n i] cases IH]; intros fs Hnd Hin.
  - apply elem_of_nil in Hin. destruct Hin.
  - rewrite fmap_cons in Hnd. apply NoDup_cons in Hnd as [Hfresh Hnd].
    rewrite written_cons. apply elem_of_cons in Hin as [Heq|Hin].
    + injection Heq as -> ->. rewrite written_other by exact Hfresh.
      unfold persist. destruct (ok (fixture_path n)); [|reflexivity].
      apply lookup_insert_eq.
    + rewrite IH by assumption.
      destruct (ok (fixture_path name)); [reflexivity|].
      unfold persist. destruct (ok (fixture_path n)); [|reflexivity].
      apply lookup_insert_ne. intros E. apply fixture_path_inj in E. subst n.
      apply Hfresh. apply list_elem_of_fmap. exists (name, input).
      split; [reflexivity|exact Hin].
Qed.

Lemma calls_summary (name : string) (input : bytes) :
  calls (summary name input) = [CallCompress input (Compress input)].
Proof. reflexivity. Qed.

Lemma stderr_summary (name : string) (input : bytes) :
  stderr (summary name input) = [].
Proof. reflexivity. Qed.

Lemma calls_cout (l : list item) : calls (Cout <$> l) = [].
Proof. induction l as [|i l IH]; [reflexivity|exact IH]. Qed.

Lemma stderr_cout (l : list item) : stderr (Cout <$> l) = [].
Proof. induction l as [|i l IH]; [reflexivity|exact IH]. Qed.

Lemma calls_app (t t' : list event) : calls (t ++ t') = calls t ++ calls t'.
Proof. unfold calls. apply omap_app. Qed.
End GeneratorFiles.

(** X5. The test cases are written independently of one another. After
    a run of the generator in any environment, the fixture file of a test
    case that could be created holds the compressed input of that case,
    whatever it held before and whatever happened to the other cases: all
    of it when nothing limits the write, and only the bytes that fitted
    when the write failed part-way, which the generator does not notice.
    The fixture file of a case that could not be created is as it was
    before; and so is every path that is no fixture path of the catalog. *)
Theorem generator_writes_each_case_independently (codec : Codec) (w : world) :
  (forall name input, (name, input) ∈ generate_test_data.catalog ->
     files (snd (run generate_test_data.main w))
       !! generate_test_data.fixture_path name =
     if creatable w (generate_test_data.fixture_path name)
     then Some (limit (capacity w (generate_test_data.fixture_path name))
                  (Compress input))
     else files w !! generate_test_data.fixture_path name) /\
  (forall name input, (name, input) ∈ generate_test_data.catalog ->
     creatable w (generate_test_data.fixture_path name) = true ->
     capacity w (generate_test_data.fixture_path name) = None ->
     files (snd (run generate_test_data.main w))
       !! generate_test_data.fixture_path name = Some (Compress input)) /\
  (forall path,
     (forall name input, (name, input) ∈ generate_test_data.catalog ->
        path <> generate_test_data.fixture_path name) ->
     files (snd (run generate_test_data.main w)) !! path = files w !! path).
Proof.
  unfold run. rewrite main_spec. cbn [snd files]. split; [|split].
  - intros name input Hin. apply written_case; [apply catalog_NoDup|exact Hin].
  - intros name input Hin Hok Hroom.
    rewrite (written_case _ _ _ _ name input catalog_NoDup Hin), Hok, Hroom.
    reflexivity.
  - intros path Hp. apply written_untouched, Hp.
Qed.

(** The [hello] case when its fixture file can be created and takes five
    bytes only: the file holds the first five bytes of the stream. *)
Lemma generator_writes_each_case_independently_witness :
  files (snd (run (@generate_test_data.main LiteralSnappy.codec)
                (start_in ∅ writable (fun _ => false) (fun _ => Some 5))))
    !! generate_test_data.fixture_path "hello"
  = Some (take 5 (LiteralSnappy.compress (lit "Hello, World!"))).
Proof.
  apply (proj1 (generator_writes_each_case_independently LiteralSnappy.codec
                  (start_in ∅ writable (fun _ => false) (fun _ => Some 5)))
           "hello" (lit "Hello, World!")).
  apply list_elem_of_lookup. exists 2%nat. reflexivity.
Defined.

(** X6. The generator compresses and nothing else: whatever the file
    system, its calls into the codec are one call of [Compress] per test
    case, in the order of the catalog and on the input of the case; it
    never checks or decompresses what it wrote, and it writes nothing to
    the error stream. *)
Theorem generator_only_compresses (codec : Codec) (fs : gmap string bytes)
    (ok : string -> bool) :
  calls (trace (snd (run generate_test_data.main (start fs ok)))) =
    (fun c => CallCompress (snd c) (Compress (snd c)))
      <$> generate_test_data.catalog /\
  stderr (trace (snd (run generate_test_data.main (start fs ok)))) = [].
Proof.
  unfold run. rewrite main_spec. cbn [snd trace start app].
  unfold main_events. split.
  - rewrite !calls_app, !calls_summary, !calls_cout.
    unfold generate_test_data.catalog. rewrite !fmap_cons, fmap_nil.
    cbn [snd app]. reflexivity.
  - rewrite !stderr_app, !stderr_summary, !stderr_cout. reflexivity.
Qed.

Section Regeneration.
Context {codec : Codec}.
Import generate_test_data.

(** Writing the cases again over what they wrote changes nothing. *)
Lemma written_idempotent (ok : string -> bool) (room : string -> option N)
    (cases : list (string * bytes))
    (fs : gmap string bytes) :
  NoDup (fst <$> cases) ->
  written ok room cases (written ok room cases fs) = written ok room cases fs.
Proof.
  intros Hnd. apply map_eq. intros path.
  destruct (decide (Exists (fun c => path = fixture_path (fst c)) cases))
    as [Hex|Hno].
  - apply Exists_exists in Hex as ([name input] & Hin & Hpath).
    cbn [fst] in Hpath. subst path.
    rewrite (written_case ok room cases (written ok room cases fs) name input Hnd Hin).
    rewrite (written_case ok room cases fs name input Hnd Hin).
    destruct (ok (fixture_path name)); reflexivity.
  - rewrite written_untouched; [reflexivity|].
    intros name input Hin Hpath. apply Hno, Exists_exists.
    exists (name, input). split; [exact Hin|exact Hpath].
Qed.
End Regeneration.

(** X11. Regenerating changes nothing: a run of the generator over the
    files an earlier run left, with the same files creatable, leaves
    every file byte for byte as it was. A fixture is overwritten from its
    start, never appended to. *)
Theorem generator_is_idempotent (codec : Codec) (fs : gmap string bytes)
    (ok : string -> bool) :
  let once := files (snd (run generate_test_data.main (start fs ok))) in
  files (snd (run generate_test_data.main (start once ok))) = once.
Proof.
  cbv zeta. unfold run. rewrite !main_spec. cbn [snd files creatable start].
  apply written_idempotent, catalog_NoDup.
Qed.

(** ** The two programs together *)

(** The codec in the Snappy stream format accepts what it compressed. *)
Lemma literal_snappy_accepts_own_output :
  codec_accepts_own_output LiteralSnappy.codec.
Proof.
  intros input Hsize.
  pose proof (LiteralSnappyProofs.round_trip input Hsize) as H.
  change (LiteralSnappy.uncompress (LiteralSnappy.compress input) = Some input)
    in H.
  change (bool_decide
            (is_Some (LiteralSnappy.uncompress (LiteralSnappy.compress input)))
          = true).
  rewrite H. reflexivity.
Qed.

(** X7. A fixture of the generator passes the validator exactly on the
    size of its input. With a codec that decompresses what it compressed,
    declares the length of what it decompresses and accepts what it
    compressed, the validator run on the fixture file a test case left
    exits with code 0 and an empty error stream when the expected size is
    the size of the case's input, and exits with code 1 on the
    size-mismatch diagnostic, which reports the size of the input as the
    declared one, when it is any other number. *)
Theorem generated_fixture_validates (codec : Codec) :
  codec_round_trip codec ->
  codec_declared_length codec ->
  codec_accepts_own_output codec ->
  forall (fs : gmap string bytes) (ok : string -> bool) (name : string)
         (input : bytes) (argv0 arg2 : string) (expectedSize : N),
    (name, input) ∈ generate_test_data.catalog ->
    ok (generate_test_data.fixture_path name) = true ->
    stoull arg2 = inr expectedSize ->
    let fixtures := files (snd (run generate_test_data.main (start fs ok))) in
    let r := run (validate_snappy.main argv0
                    [generate_test_data.fixture_path name; arg2])
               (start fixtures ok) in
    (expectedSize = size input ->
       fst r = Exited 0 /\ stderr (trace (snd r)) = []) /\
    (expectedSize <> size input ->
       fst r = Exited 1 /\
       stderr (trace (snd r)) =
         diagnostic (SizeMismatch expectedSize (size input))).
Proof.
  intros Hrt Hdl Hacc fs ok name input argv0 arg2 expectedSize Hin Hok Harg.
  cbv zeta.
  assert (Hsize : size input < 2 ^ 32).
  { pose proof catalog_sizes as Hs. rewrite Forall_forall in Hs.
    apply (Hs (name, input) Hin). }
  assert (Hfix : files (snd (run generate_test_data.main (start fs ok)))
                   !! generate_test_data.fixture_path name
                 = Some (Compress input)).
  { unfold run. rewrite main_spec. cbn [snd files creatable start].
    apply written_lookup; [apply catalog_NoDup|exact Hin|exact Hok|reflexivity]. }
  pose proof (main_outcome argv0 (generate_test_data.fixture_path name) arg2
                (files (snd (run generate_test_data.main (start fs ok)))) ok
                expectedSize Harg) as H.
  cbv zeta in H. unfold pipeline in H. rewrite Hfix in H.
  rewrite (Hacc input Hsize) in H.
  rewrite (Hdl _ _ (Hrt input Hsize)) in H.
  rewrite (Hrt input Hsize) in H.
  split.
  - intros ->. rewrite N.eqb_refl in H. destruct H as (H1 & H2 & _).
    split; assumption.
  - intros Hne. apply not_eq_sym in Hne. apply N.eqb_neq in Hne.
    rewrite Hne in H. destruct H as (H1 & H2 & _). split; assumption.
Qed.

(** The [hello] fixture, written to an empty file system, validated
    against the size 13. *)
Lemma generated_fixture_validates_witness :
  let fixtures :=
    files (snd (run (@generate_test_data.main LiteralSnappy.codec)
                  (start ∅ writable))) in
  let r := run (@validate_snappy.main LiteralSnappy.codec "validate_snappy"
                  [generate_test_data.fixture_path "hello"; "13"])
             (start fixtures writable) in
  fst r = Exited 0 /\ stderr (trace (snd r)) = [].
Proof.
  apply (proj1 (generated_fixture_validates LiteralSnappy.codec
                  LiteralSnappyProofs.round_trip
                  LiteralSnappyProofs.declared_length
                  literal_snappy_accepts_own_output
                  ∅ writable "hello" (lit "Hello, World!")
                  "validate_snappy" "13" 13
                  ltac:(apply list_elem_of_lookup; exists 2%nat; reflexivity)
                  eq_refl eq_refl)).
  reflexivity.
Defined.

(** ** The corpus, further *)

(** X8. The sizes of the inputs of the thirteen test cases, which are the
    expected sizes their fixtures validate against. The last input is
    10,485,700 bytes long, 60 short of 10 MiB: the loop runs
    10485760 / 100 times in integer arithmetic. *)
Theorem catalog_input_sizes :
  (fun c : string * bytes => (fst c, size (snd c)))
    <$> generate_test_data.catalog =
  [("empty", 0); ("single_byte", 1); ("hello", 13); ("repeated", 100);
   ("pattern", 160); ("longer_text", 179); ("ascii", 95); ("large", 10000);
   ("mixed", 34); ("numbers", 290); ("large_100kb", 100000);
   ("large_1mb", 1048576); ("large_10mb", 10485700)].
Proof.
  unfold generate_test_data.catalog. rewrite !fmap_cons, fmap_nil.
  cbn [fst snd].
  assert (E1 : size (lit "") = 0) by (vm_compute; reflexivity).
  assert (E2 : size (lit "A") = 1) by (vm_compute; reflexivity).
  assert (E3 : size (lit "Hello, World!") = 13) by (vm_compute; reflexivity).
  assert (E5 : size generate_test_data.pattern = 160)
    by (vm_compute; reflexivity).
  assert (E6 : size generate_test_data.longer = 179)
    by (vm_compute; reflexivity).
  assert (E7 : size generate_test_data.ascii = 95)
    by (vm_compute; reflexivity).
  assert (E8 : size generate_test_data.large = 10000) by apply size_fill.
  assert (E9 : size generate_test_data.mixed = 34)
    by (vm_compute; reflexivity).
  assert (E10 : size generate_test_data.numbers = 290)
    by (vm_compute; reflexivity).
  assert (E11 : size generate_test_data.large100k = 100000)
    by apply size_string_resize.
  assert (E12 : size generate_test_data.large1mb = 1048576)
    by apply size_string_resize.
  rewrite E1, E2, E3, size_fill, E5, E6, E7, E8, E9, E10, E11, E12,
    large10mb_size.
  reflexivity.
Qed.

(** [std::to_string] of a number below 10000 has at most four digits. *)
Lemma to_string_short (i : Z) :
  (0 <= i < 10000)%Z -> (length (to_string i) <= 4)%nat.
Proof.
  intros Hi.
  assert (H : forallb (fun i => (length (to_string i) <=? 4)%nat)
                (seqZ 0 10000) = true) by (vm_compute; reflexivity).
  rewrite forallb_forall in H.
  apply Nat.leb_le, H, list_elem_of_In, elem_of_seqZ. lia.
Qed.

(** One iteration of the loop of the 1 MiB case adds at most 68 bytes of
    text, and 50 more in every tenth iteration. *)
Lemma log_line_size (i : Z) (s : bytes) (k : N) :
  (0 <= i < 10000)%Z ->
  10 * k <= Z.to_N i + 9 ->
  size s <= 68 * Z.to_N i + 50 * k ->
  exists k' : N,
    10 * k' <= Z.to_N (i + 1) + 9 /\
    size (let large1mb :=
            s ++
            (lit "Line " ++ to_string i ++
             lit ": Lorem ipsum dolor sit amet, consectetur adipiscing elit. ") in
          if (Z.rem i 10 =? 0)%Z
          then large1mb ++ fill 50 (char (65 + Z.rem i 26))
          else large1mb)
    <= 68 * Z.to_N (i + 1) + 50 * k'.
Proof.
  intros Hi Hk Hs. cbv zeta.
  pose proof (to_string_short i Hi) as Hd.
  assert (Hline : size (s ++ (lit "Line " ++ to_string i ++
             lit ": Lorem ipsum dolor sit amet, consectetur adipiscing elit. "))
           <= size s + 68).
  { rewrite !size_app. unfold size at 2 3 4.
    change (length (lit "Line ")) with 5%nat.
    change (length (lit ": Lorem ipsum dolor sit amet, consectetur adipiscing elit. "))
      with 59%nat.
    lia. }
  destruct (Z.rem i 10 =? 0)%Z eqn:Hrem.
  - apply Z.eqb_eq in Hrem.
    pose proof (Z.quot_rem' i 10) as Hq. rewrite Hrem in Hq.
    set (q := (i ÷ 10)%Z) in *. clearbody q.
    exists (k + 1). rewrite size_app, size_fill. lia.
  - exists k. lia.
Qed.

(** The lines of the 1 MiB case before it is resized: less than 1 MiB. *)
Lemma log_lines_size :
  size (for_range 0 10000
          (fun i large1mb =>
             let large1mb :=
               large1mb ++
               (lit "Line " ++ to_string i ++
                lit ": Lorem ipsum dolor sit amet, consectetur adipiscing elit. ") in
             if (Z.rem i 10 =? 0)%Z
             then large1mb ++ fill 50 (char (65 + Z.rem i 26))
             else large1mb)
          []) <= 730000.
Proof.
  pose proof (for_range_ind
    (fun i s => exists k : N,
       10 * k <= Z.to_N i + 9 /\ size s <= 68 * Z.to_N i + 50 * k)
    0 10000
    (fun i large1mb =>
       let large1mb :=
         large1mb ++
         (lit "Line " ++ to_string i ++
          lit ": Lorem ipsum dolor sit amet, consectetur adipiscing elit. ") in
       if (Z.rem i 10 =? 0)%Z
       then large1mb ++ fill 50 (char (65 + Z.rem i 26))
       else large1mb)
    []) as H.
  destruct H as (k & Hk & Hs).
  - lia.
  - exists 0. unfold size. cbn [length]. lia.
  - intros i s Hi (k & Hk & Hs). apply (log_line_size i s k Hi Hk Hs).
  - revert Hk Hs.
    generalize (size (for_range 0 10000
      (fun i large1mb =>
         let large1mb :=
           large1mb ++
           (lit "Line " ++ to_string i ++
            lit ": Lorem ipsum dolor sit amet, consectetur adipiscing elit. ") in
         if (Z.rem i 10 =? 0)%Z
         then large1mb ++ fill 50 (char (65 + Z.rem i 26))
         else large1mb)
      [])).
    intros n Hk Hs. lia.
Qed.

(** Past the end of the string it was applied to, [resize] pads. *)
Lemma string_resize_padding (n : N) (s : bytes) (i : nat) :
  size s <= N.of_nat i -> N.of_nat i < n ->
  string_resize n s !! i = Some x00.
Proof.
  intros Hs Hn. unfold string_resize, size in *.
  apply lookup_resize_new; lia.
Qed.

(** X9. The 1 MiB input is padded, not truncated. The loop that builds
    it produces at most 730,000 bytes of text, so the final
    [resize(1048576)] appends NUL bytes: every byte of the input from
    offset 730,000 to the end is the NUL byte. *)
Theorem large1mb_ends_in_padding (i : nat) :
  730000 <= N.of_nat i < 1048576 ->
  generate_test_data.large1mb !! i = Some x00.
Proof.
  intros [Hlo Hhi]. unfold generate_test_data.large1mb.
  apply string_resize_padding; [|exact Hhi].
  apply (N.le_trans _ 730000); [apply log_lines_size|exact Hlo].
Qed.

(** The byte at offset 1,000,000. *)
Lemma large1mb_ends_in_padding_witness :
  generate_test_data.large1mb !! N.to_nat 1000000 = Some x00.
Proof. apply large1mb_ends_in_padding. rewrite N2Nat.id. lia. Defined.
